(** * Symptom search and match: a shallow embedding of [SymptomSelector]

    The symptom selector of Health-AI (the second module carried by
    [src/components/ResultDashboard.tsx]) ranks a static taxonomy of symptoms
    against a free-text query.  This file embeds [levenshteinDistance],
    [getMatchScore], the [displayedCategories] computation, and the state
    transitions [toggleSymptom], [toggleCategory], [handleConfirm] and the
    close handler, and proves properties of them.

    Conventions.
    - A JavaScript string is the list of its UTF-16 code units ([list N]);
      [.length] is the length of that list.
    - [String.prototype.toLowerCase] is a built-in with full Unicode case
      mapping; it is a parameter of the development, so every general result
      holds for every lower-casing function.  Concrete evaluations use
      [asciiLower], which agrees with the built-in on ASCII strings.
    - A thrown error (a [TypeError], or the error React raises when a render
      calls another number of hooks than the one before) is the [Throw]
      outcome of the [completion] monad; a JavaScript [undefined] or [NaN]
      number is [None] in a [cell]. *)

From Stdlib Require Import ZArith NArith Ascii String Lia Permutation Sorted.
From stdpp Require Import base option list gmap sets.

#[local] Set Warnings "-clear-no-such-hyp".
Local Open Scope nat_scope.

(** ** JavaScript strings *)

Abbreviation jsstring := (list N).

Definition str (s : string) : jsstring :=
  map N_of_ascii (list_ascii_of_string s).

(** [s.charAt(i)]: the unit at [i], or the empty string ([None]) out of range;
    two [charAt] results are [===] exactly when they agree as options. *)
Definition charAt (s : jsstring) (i : nat) : option N := s !! i.

(** [t.startsWith(q)] *)
Fixpoint startsWith (t q : jsstring) {struct q} : bool :=
  match q, t with
  | [], _ => true
  | _ :: _, [] => false
  | c :: q', d :: t' => bool_decide (c = d) && startsWith t' q'
  end.

(** [t.includes(q)]: [q] starts at some position of [t]. *)
Fixpoint includes (t q : jsstring) : bool :=
  startsWith t q ||
  match t with
  | [] => false
  | _ :: t' => includes t' q
  end.

(** ECMAScript WhiteSpace and LineTerminator code points, the ones
    [String.prototype.trim] strips. *)
Definition isWhiteSpace (c : N) : bool :=
  bool_decide (c ∈ [9; 10; 11; 12; 13; 32; 160; 5760; 8232; 8233; 8239; 8287;
                    12288; 65279]%N)
  || ((8192 <=? c)%N && (c <=? 8202)%N).

Fixpoint trimStart (s : jsstring) : jsstring :=
  match s with
  | [] => []
  | c :: s' => if isWhiteSpace c then trimStart s' else s
  end.

Definition trim (s : jsstring) : jsstring :=
  reverse (trimStart (reverse (trimStart s))).

(** ASCII lower-casing: what [toLowerCase] does on a string of ASCII units. *)
Definition asciiLowerUnit (c : N) : N :=
  if ((65 <=? c)%N && (c <=? 90)%N)%bool then (c + 32)%N else c.

Definition asciiLower (s : jsstring) : jsstring := map asciiLowerUnit s.

Definition isAscii (s : jsstring) : Prop := Forall (λ c, (c < 128)%N) s.

(** ** Completions: a computation returns normally or throws *)

Inductive completion (A : Type) : Type :=
| Normal (a : A)
| Throw.
Arguments Normal {A} a.
Arguments Throw {A}.

#[global] Instance completion_ret : MRet completion := @Normal.
#[global] Instance completion_bind : MBind completion :=
  λ A B f m, match m with Normal a => f a | Throw => Throw end.
#[global] Instance completion_fmap : FMap completion :=
  λ A B f m, match m with Normal a => Normal (f a) | Throw => Throw end.

(** [for (let i = lo; ...; i++) body], run for [n] iterations. *)
Fixpoint for_loop {St : Type} (lo n : nat) (body : nat → St → completion St)
    (s : St) : completion St :=
  match n with
  | 0 => Normal s
  | S n' => s' ← body lo s; for_loop (S lo) n' body s'
  end.

(** [l.map(f)] for a callback that may throw. *)
Fixpoint mapM {A B : Type} (f : A → completion B) (l : list A)
    : completion (list B) :=
  match l with
  | [] => Normal []
  | x :: l' => y ← f x; ys ← mapM f l'; Normal (y :: ys)
  end.

(** ** JavaScript arrays with holes *)

(** An array element is [None] when it is a hole or holds [undefined]. *)
Definition arr_get {A : Type} (l : list (option A)) (i : nat) : option A :=
  l !! i ≫= id.

(** [l[i] = v]: overwrite in range, otherwise grow the array, leaving holes
    below [i]. *)
Definition arr_set {A : Type} (i : nat) (v : option A) (l : list (option A))
    : list (option A) :=
  if decide (i < length l) then <[i:=v]> l
  else l ++ replicate (i - length l) None ++ [v].

(** ** [levenshteinDistance] *)

(** A matrix cell: a number, or [None] for [undefined]/[NaN] (which [+ 1] and
    [Math.min] propagate and which every comparison rejects). *)
Abbreviation cell := (option nat).
Abbreviation row := (list (option nat)).
Abbreviation matrix := (list (option (list (option nat)))).

Definition succ_cell (c : cell) : cell := S <$> c.

(** [Math.min(x, y, z)] *)
Definition min3 (x y z : cell) : cell :=
  x ← x; y ← y; z ← z; Some (x `min` (y `min` z)).

(** [matrix[i]] as the base of a member access: [undefined[j]] throws. *)
Definition the_row (m : matrix) (i : nat) : completion row :=
  match arr_get m i with
  | Some r => Normal r
  | None => Throw
  end.

Definition levenshteinDistance (a b : jsstring) : completion cell :=
  let matrix : matrix := [] in
  matrix ← for_loop 0 (S (length b)) (λ i matrix,
    Normal (arr_set i (Some [Some i]) matrix)) matrix;
  matrix ← for_loop 0 (S (length a)) (λ j matrix,
    r ← the_row matrix 0;
    Normal (arr_set 0 (Some (arr_set j (Some j) r)) matrix)) matrix;
  matrix ← for_loop 1 (length b) (λ i matrix,
    for_loop 1 (length a) (λ j matrix,
      if decide (charAt b (i - 1) = charAt a (j - 1)) then
        ri ← the_row matrix i;
        rp ← the_row matrix (i - 1);
        Normal (arr_set i (Some (arr_set j (arr_get rp (j - 1)) ri)) matrix)
      else
        ri ← the_row matrix i;
        rp ← the_row matrix (i - 1);
        let v := min3 (succ_cell (arr_get rp (j - 1)))
                      (succ_cell (arr_get ri (j - 1)))
                      (succ_cell (arr_get rp j)) in
        Normal (arr_set i (Some (arr_set j v ri)) matrix)) matrix) matrix;
  r ← the_row matrix (length b);
  Normal (arr_get r (length a)).

(** ** [getMatchScore] *)

Section Scorer.

Variable toLowerCase : jsstring → jsstring.

Definition getMatchScore (text query : jsstring) : completion Z :=
  let t := toLowerCase text in
  let q := toLowerCase query in
  if decide (t = q) then Normal 100%Z
  else if startsWith t q then Normal 80%Z
  else if includes t q then Normal 60%Z
  else if decide (2 < length q) then
    distance ← levenshteinDistance q t;
    let allowedErrors := if decide (5 < length q) then 2 else 1 in
    match distance with
    | Some d =>
        if decide (d ≤ allowedErrors)
        then Normal (50 - Z.of_nat d * 10)%Z
        else Normal 0%Z
    | None => Normal 0%Z (* NaN <= n is false *)
    end
  else Normal 0%Z.

End Scorer.

(** ** The static taxonomy *)

Inductive icon : Type :=
| Thermometer | Wind | Activity | Heart | Brain | Zap | Smile.

Record category_data : Type := { icon_of : icon; items : list jsstring }.

#[global] Instance icon_eq_dec : EqDecision icon.
Proof. solve_decision. Defined.
#[global] Instance category_data_eq_dec : EqDecision category_data.
Proof. solve_decision. Defined.

(** An object literal, as its properties in source order. *)
Definition object_literal (kvs : list (string * list string))
    : list (jsstring * list jsstring) :=
  map (λ kv, (str kv.1, map str kv.2)) kvs.

(** The properties as a map; of two equal keys the later one wins. *)
Definition object_of (kvs : list (jsstring * list jsstring))
    : gmap jsstring (list jsstring) :=
  foldl (λ m kv, <[kv.1 := kv.2]> m) ∅ kvs.

Definition SYNONYMS_literal : list (jsstring * list jsstring) :=
  object_literal [
    ("Fever", ["high temperature"; "hot"; "pyrexia"; "burning up"; "chills";
               "feverish"; "feeling hot"]);
    ("Fatigue", ["tired"; "exhaustion"; "weak"; "weary"; "lethargy"; "drained";
                 "no energy"; "sleepy"; "burnout"]);
    ("Nausea", ["queasy"; "sick to stomach"; "urges to vomit"; "upset stomach";
                "nauseous"; "groggy"]);
    ("Vomiting", ["throwing up"; "puke"; "barf"; "sickness"; "retching";
                  "heaving"]);
    ("Abdominal pain", ["stomach ache"; "belly pain"; "tummy ache"; "gut pain";
                        "cramps"; "stomach pain"; "pain in stomach";
                        "gastritis"]);
    ("Diarrhea", ["runny stool"; "loose stools"; "the runs"; "poop";
                  "liquid stool"; "dysentery"; "bowel issues"]);
    ("Shortness of breath", ["dyspnea"; "hard to breathe"; "winded"; "gasping";
                             "cant breathe"; "breathless"; "short breath";
                             "air hunger"]);
    ("Edema", ["swelling"; "puffy"; "fluid retention"; "swollen"; "bloated";
               "puffiness"]);
    ("Headache", ["migraine"; "head pain"; "throbbing head";
                  "splitting headache"; "tension headache"; "head pressure"]);
    ("Insomnia", ["cant sleep"; "sleepless"; "awake"; "trouble sleeping";
                  "restless"; "waking up"]);
    ("Weight loss", ["lost weight"; "skinny"; "thin"; "shedding pounds";
                     "anorexia"]);
    ("Hypertension", ["high blood pressure"; "bp"; "elevated pressure"]);
    ("Chest pain", ["angina"; "tight chest"; "pressure"; "heart pain";
                    "chest tightness"; "heavy chest"]);
    ("Rash", ["spots"; "hives"; "breakout"; "skin irritation"; "itchy skin";
              "redness"; "eczema"; "dermatitis"; "acne"]);
    ("Joint pain", ["arthritis"; "stiff joints"; "aching joints"; "knee pain";
                    "elbow pain"; "wrist pain"; "hip pain"; "gout"]);
    ("Cough", ["coughing"; "hack"; "phlegm"; "dry cough"; "wet cough";
               "barking cough"]);
    ("Sore throat", ["throat pain"; "hurts to swallow"; "pharyngitis";
                     "scratchy throat"; "strep"; "tonsillitis"]);
    ("Dizziness", ["lightheaded"; "spinning"; "vertigo"; "unsteady"; "faint";
                   "woozy"; "balance issues"]);
    ("Palpitations", ["racing heart"; "heart skip"; "fluttering"; "thumping";
                      "rapid heartbeat"; "heart pounding"]);
    ("Tremors", ["shaking"; "shivers"; "twitching"; "trembling"; "shakes"]);
    ("Vision changes", ["blurry vision"; "seeing double"; "vision loss";
                        "spots in eyes"; "blindness"; "eye strain"]);
    ("Confusion", ["disoriented"; "brain fog"; "mixed up"; "delirium";
                   "memory loss"; "forgetful"]);
    ("Numbness", ["tingling"; "pins and needles"; "loss of sensation";
                  "asleep limb"; "paresthesia"]);
    ("Constipation", ["cant poop"; "hard stool"; "blocked"; "irregular";
                      "strained bowel"]);
    ("Indigestion", ["heartburn"; "acid reflux"; "gerd"; "burping"; "gas";
                     "bloating"]);
    ("Muscle ache", ["body ache"; "sore muscles"; "painful muscles"; "myalgia";
                     "cramps"]);
    ("Runny nose", ["snot"; "boogers"; "nasal drip"; "rhinorrhea";
                    "stuffy nose"]);
    ("Sneezing", ["achoo"; "sneezes"; "allergy"]);
    ("Itching", ["scratchy"; "itch"; "pruritus"]);
    ("Watery eyes", ["tearing"; "crying"; "teary"; "red eyes"]);
    ("Chills", ["shivering"; "cold"; "goosebumps"; "feeling cold"]);
    ("Sweating", ["perspiration"; "sweaty"; "clammy"; "hot flashes"]);
    ("Night sweats", ["sweating at night"; "soaked sheets"]);
    ("Anxiety", ["nervous"; "worry"; "panic"; "stress"; "uneasy"; "fear";
                 "tension"]);
    ("Depression", ["sad"; "down"; "hopeless"; "unhappy"; "blues"; "low mood"]);
    ("Mood swings", ["emotional"; "irritable"; "bipolar"])
  ]%string.

Definition SYNONYMS : gmap jsstring (list jsstring) :=
  object_of SYNONYMS_literal.

(** [Object.entries(CATEGORIES)]: the keys are not array indices, so the
    entries come in declaration order. *)
Definition CATEGORIES : list (jsstring * category_data) :=
  map (λ e : string * icon * list string,
         (str e.1.1, {| icon_of := e.1.2; items := map str e.2 |})) [
    ("General", Thermometer,
       ["Fever"; "Fatigue"; "Chills"; "Weakness"; "Dizziness"; "Insomnia";
        "Weight loss"; "Night sweats"; "Sweating"]);
    ("Respiratory", Wind,
       ["Cough"; "Shortness of breath"; "Sore throat"; "Runny nose";
        "Wheezing"; "Chest congestion"; "Congestion"; "Sneezing"]);
    ("Digestive", Activity,
       ["Nausea"; "Vomiting"; "Diarrhea"; "Abdominal pain"; "Bloating";
        "Heartburn"; "Loss of appetite"; "Indigestion"; "Constipation"]);
    ("Cardiovascular", Heart,
       ["Chest pain"; "Palpitations"; "Fast heart rate"; "Swollen legs";
        "Cold extremities"; "Irregular heartbeat"]);
    ("Neurological", Brain,
       ["Headache"; "Confusion"; "Numbness"; "Tremors"; "Seizures";
        "Slurred speech"; "Vision changes"]);
    ("Pain", Zap,
       ["Back pain"; "Joint pain"; "Muscle ache"; "Neck pain"; "Sharp pain";
        "Dull ache"]);
    ("Skin", Activity,
       ["Rash"; "Itching"; "Redness"; "Swelling"; "Bruising"; "Dry skin";
        "Hives"; "Watery eyes"]);
    ("Mental Health", Smile,
       ["Anxiety"; "Depression"; "Mood swings"; "Panic attacks"; "Stress";
        "Irritability"])
  ]%string.

(** ** Property lookup on a plain object *)

(** [o[k]] on an object literal finds own properties and, failing that, the
    members inherited from [Object.prototype]: functions, or for [__proto__]
    the prototype object.  Those are truthy and not iterable. *)
Inductive property : Type :=
| Undefined
| ArrayValue (l : list jsstring)
| Inherited.

Definition object_prototype_names : list jsstring :=
  map str ["constructor"; "__defineGetter__"; "__defineSetter__";
           "hasOwnProperty"; "__lookupGetter__"; "__lookupSetter__";
           "isPrototypeOf"; "propertyIsEnumerable"; "toString"; "valueOf";
           "__proto__"; "toLocaleString"]%string.

Definition get_property (o : gmap jsstring (list jsstring)) (k : jsstring)
    : property :=
  match o !! k with
  | Some l => ArrayValue l
  | None =>
      if bool_decide (k ∈ object_prototype_names) then Inherited
      else Undefined
  end.

(** ** [Array.prototype.sort] *)

(** The built-in is a stable sort: [x] is placed before the elements it was
    ahead of unless the comparator puts them strictly first. *)
Section Sort.
Context {A : Type} (compareFn : A → A → Z).

Fixpoint sort_insert (x : A) (l : list A) : list A :=
  match l with
  | [] => [x]
  | y :: l' =>
      if decide (compareFn x y ≤ 0)%Z then x :: l
      else y :: sort_insert x l'
  end.

Definition sort (l : list A) : list A := foldr sort_insert [] l.
End Sort.

(** ** [displayedCategories] *)

(** The sentinel of [activeCategories]. *)
Definition All : jsstring := str "All".

Record scored : Type := { item : jsstring; score : Z }.

Section QueryEngine.

Variable toLowerCase : jsstring → jsstring.
Variable categories : list (jsstring * category_data).
Variable synonyms : gmap jsstring (list jsstring).

(** The [for (const syn of itemSynonyms)] loop. *)
Fixpoint synonym_loop (query : jsstring) (itemSynonyms : list jsstring)
    (maxScore : Z) : completion Z :=
  match itemSynonyms with
  | [] => Normal maxScore
  | syn :: rest =>
      synScore ← getMatchScore toLowerCase syn query;
      synonym_loop query rest
        (if decide (maxScore < synScore)%Z then synScore else maxScore)
  end.

(** The callback of [data.items.map]. *)
Definition score_item (query : jsstring) (item : jsstring)
    : completion scored :=
  maxScore ← getMatchScore toLowerCase item query;
  maxScore ←
    match get_property synonyms item with
    | Undefined => Normal maxScore
    | ArrayValue itemSynonyms => synonym_loop query itemSynonyms maxScore
    | Inherited => Throw (* a function or plain object is not iterable *)
    end;
  Normal {| item := item; score := maxScore |}.

(** The callback of [Object.entries(CATEGORIES).map]; [None] is [null]. *)
Definition category_entry (searchQuery : jsstring)
    (activeCategories : gset jsstring) (entry : jsstring * category_data)
    : completion (option (jsstring * category_data)) :=
  let '(category, data) := entry in
  let isAll := bool_decide (All ∈ activeCategories) in
  if negb isAll && negb (bool_decide (category ∈ activeCategories))
  then Normal None
  else
    let query := trim searchQuery in
    if decide (query = []) then Normal (Some (category, data))
    else
      categoryScore ← getMatchScore toLowerCase category query;
      scoredItems ← mapM (score_item query) data.(items);
      let relevantItems :=
        filter (λ i, 0 < i.(score))%Z scoredItems in
      let relevantItems :=
        sort (λ a b, b.(score) - a.(score))%Z relevantItems in
      if decide (90 ≤ categoryScore)%Z then Normal (Some (category, data))
      else if decide (0 < length relevantItems) then
        Normal (Some (category,
                      {| icon_of := data.(icon_of);
                         items := item <$> relevantItems |}))
      else Normal None.

(** [.map(...).filter(Boolean)] *)
Definition filterAndRank (searchQuery : jsstring)
    (activeCategories : gset jsstring)
    : completion (list (jsstring * category_data)) :=
  entries ← mapM (category_entry searchQuery activeCategories) categories;
  Normal (omap (M:=list) id entries).

End QueryEngine.

Definition displayedCategories (toLowerCase : jsstring → jsstring)
    (searchQuery : jsstring) (activeCategories : gset jsstring)
    : completion (list (jsstring * category_data)) :=
  filterAndRank toLowerCase CATEGORIES SYNONYMS searchQuery activeCategories.

(** ** The selector's state and its transitions *)

(** A JavaScript [Set] keeps insertion order, which [Array.from(selected)]
    observes: [selected] is a duplicate-free list.  Only [has], [add],
    [delete] and [size] are used on [activeCategories], a [gset]. *)
Definition set_has (x : jsstring) (s : list jsstring) : bool :=
  bool_decide (x ∈ s).
Definition set_delete (x : jsstring) (s : list jsstring) : list jsstring :=
  filter (λ y, y ≠ x) s.
Definition set_add (x : jsstring) (s : list jsstring) : list jsstring :=
  if set_has x s then s else s ++ [x].

(** [selected.join(sep)] *)
Fixpoint join (sep : jsstring) (l : list jsstring) : jsstring :=
  match l with
  | [] => []
  | [x] => x
  | x :: l' => x ++ sep ++ join sep l'
  end.

Module Selector.

(** The three [useState] cells of [SymptomSelector]. *)
Record state : Type := {
  selected : list jsstring;
  searchQuery : jsstring;
  activeCategories : gset jsstring
}.

Definition initial : state :=
  {| selected := []; searchQuery := []; activeCategories := {[ All ]} |}.

Definition toggleSymptom (symptom : jsstring) (st : state) : state :=
  let newSelected := st.(selected) in
  let newSelected :=
    if set_has symptom newSelected then set_delete symptom newSelected
    else set_add symptom newSelected in
  {| selected := newSelected; searchQuery := st.(searchQuery);
     activeCategories := st.(activeCategories) |}.

Definition setSearchQuery (q : jsstring) (st : state) : state :=
  {| selected := st.(selected); searchQuery := q;
     activeCategories := st.(activeCategories) |}.

Definition clearSearch (st : state) : state := setSearchQuery [] st.

(** The new value of [activeCategories] after [toggleCategory(cat)]. *)
Definition toggleCategory (cat : jsstring) (activeCategories : gset jsstring)
    : gset jsstring :=
  let newCats := activeCategories in
  if decide (cat = All) then {[ All ]}
  else
    let newCats :=
      if decide (All ∈ newCats) then newCats ∖ {[ All ]} else newCats in
    let newCats :=
      if decide (cat ∈ newCats) then newCats ∖ {[ cat ]}
      else newCats ∪ {[ cat ]} in
    if decide (size newCats = 0) then {[ All ]} else newCats.

Definition setActiveCategories (cats : gset jsstring) (st : state) : state :=
  {| selected := st.(selected); searchQuery := st.(searchQuery);
     activeCategories := cats |}.

(** [handleSymptomsAdded], the host's [onSelect]. *)
Definition handleSymptomsAdded (selectedSymptoms : list jsstring)
    (prev : jsstring) : jsstring :=
  let trimmed := trim prev in
  if decide (trimmed = []) then join (str ", ") selectedSymptoms
  else
    let lastChar := last trimmed in
    let separator :=
      if bool_decide (lastChar = Some 44%N ∨ lastChar = Some 46%N)
      then str " " else str ", " in
    trimmed ++ separator ++ join (str ", ") selectedSymptoms.

(** *** Props

    What a host hands to [SymptomSelector]: [isOpen], read off the host's
    state at every render, and the callbacks [onClose] and [onSelect], which
    update the host's state. *)
Record props (H : Type) : Type := {
  isOpen : H → bool;
  onClose : H → H;
  onSelect : list jsstring → H → H
}.

Arguments isOpen {H}.
Arguments onClose {H}.
Arguments onSelect {H}.

(** The host [App], with the two cells that these props read and write. *)
Record app : Type := {
  isSymptomModalOpen : bool;
  symptoms : jsstring
}.

Definition App : props app :=
  {| isOpen := isSymptomModalOpen;
     onClose := λ a,
       {| isSymptomModalOpen := false; symptoms := a.(symptoms) |};
     onSelect := λ selectedSymptoms a,
       {| isSymptomModalOpen := a.(isSymptomModalOpen);
          symptoms := handleSymptomsAdded selectedSymptoms a.(symptoms) |} |}.


(** *** Rendering

    [SymptomSelector] calls [useState] three times, returns [null] when
    [isOpen] is false, and only otherwise goes on to [useMemo]: a render
    calls three hooks while the dialog is closed and four while it is open.
    React throws when a mounted component calls another number of hooks than
    in its previous render. *)
Definition hooks_called (isOpen : bool) : nat := if isOpen then 4 else 3.

(** A mounted component: the state of its host, its own three cells, and the
    number of hooks that its last render called. *)
Record mounted (H : Type) : Type := {
  host_state : H;
  cells : state;
  hooks : nat
}.

Arguments host_state {H}.
Arguments cells {H}.
Arguments hooks {H}.

(** What can happen: the host changes its own state, or the user acts on the
    dialog. *)
Inductive event (H : Type) : Type :=
| Host (f : H → H)
| ToggleSymptom (symptom : jsstring)
| Type_ (q : jsstring)
| ClearSearch
| ToggleCategory (cat : jsstring)
| Confirm
| Cancel.

Arguments Host {H}.
Arguments ToggleSymptom {H}.
Arguments Type_ {H}.
Arguments ClearSearch {H}.
Arguments ToggleCategory {H}.
Arguments Confirm {H}.
Arguments Cancel {H}.

Section Component.

Context {H : Type} (p : props H).

(** The first render of a component never throws. *)
Definition mount (h : H) : mounted H :=
  {| host_state := h; cells := initial;
     hooks := hooks_called (p.(isOpen) h) |}.

(** A later render, after the host's state or the cells have changed. *)
Definition render (hooks_before : nat) (h : H) (st : state)
    : completion (mounted H) :=
  let n := hooks_called (p.(isOpen) h) in
  if decide (n = hooks_before)
  then Normal {| host_state := h; cells := st; hooks := n |}
  else Throw.

Definition handleConfirm (h : H) (st : state) : H * state :=
  let h := p.(onSelect) st.(selected) h in
  let st := initial in
  let h := p.(onClose) h in
  (h, st).

(** One event and the render that follows it.  While the dialog is closed
    the component renders nothing, so the user cannot act on it; the confirm
    button is disabled while nothing is selected; the Cancel button, the
    close button and the backdrop all call [onClose] and nothing else. *)
Definition step (m : mounted H) (e : event H) : completion (mounted H) :=
  let h := m.(host_state) in
  let st := m.(cells) in
  match e with
  | Host f => render m.(hooks) (f h) st
  | _ =>
      if negb (p.(isOpen) h) then Normal m
      else
        match e with
        | Host _ => Normal m
        | ToggleSymptom s => render m.(hooks) h (toggleSymptom s st)
        | Type_ q => render m.(hooks) h (setSearchQuery q st)
        | ClearSearch => render m.(hooks) h (clearSearch st)
        | ToggleCategory c =>
            render m.(hooks) h
              (setActiveCategories (toggleCategory c st.(activeCategories))
                 st)
        | Confirm =>
            if decide (length st.(selected) = 0) then Normal m
            else
              let '(h', st') := handleConfirm h st in
              render m.(hooks) h' st'
        | Cancel => render m.(hooks) (p.(onClose) h) st
        end
  end.

Fixpoint run (m : mounted H) (es : list (event H))
    : completion (mounted H) :=
  match es with
  | [] => Normal m
  | e :: es' => m' ← step m e; run m' es'
  end.

End Component.

(** [App] mounts the component with the dialog closed. *)
Definition start : mounted app :=
  mount App {| isSymptomModalOpen := false; symptoms := [] |}.

(** The states of [activeCategories] that toggling can reach. *)
Definition well_formed (s : gset jsstring) : Prop :=
  s = {[ All ]} ∨ (s ≠ ∅ ∧ All ∉ s).

(** [activeCategories] after toggling the given categories in turn. *)
Definition toggles (cats : list jsstring) : gset jsstring :=
  foldl (λ s cat, toggleCategory cat s) {[ All ]} cats.

End Selector.

(** ** The report dashboard *)

(** [toggleStep]: the new value of [expandedSteps], the indices of the
    expanded next steps. *)
Definition toggleStep (index : nat) (prev : list nat) : list nat :=
  if bool_decide (index ∈ prev) then filter (λ i, i ≠ index) prev
  else prev ++ [index].

(** ** [renderRiskFactors]

    The risk factors of a report are shown under one heading per category;
    those without a category follow in a list of their own. *)

(** [Array.prototype.forEach] with a callback that may throw. *)
Fixpoint forEach {A St : Type} (f : A → St → completion St) (l : list A)
    (s : St) : completion St :=
  match l with
  | [] => Normal s
  | x :: l' => s' ← f x s; forEach f l' s'
  end.

Module RiskFactors.

Record RiskFactor : Type :=
  { category : jsstring; factor : jsstring; explanation : jsstring }.

#[global] Instance RiskFactor_eq_dec : EqDecision RiskFactor.
Proof. solve_decision. Defined.

(** [groups] is an object literal used as a map from category to array: its
    own properties in order of creation.  Reading a name it does not own
    finds the members of [Object.prototype]. *)
Definition object : Type := list (jsstring * list RiskFactor).

Fixpoint own_property (groups : object) (k : jsstring)
    : option (list RiskFactor) :=
  match groups with
  | [] => None
  | (k', items) :: rest =>
      if decide (k' = k) then Some items else own_property rest k
  end.

(** [groups[k].push(item)] on an own property [k]. *)
Fixpoint push (k : jsstring) (item : RiskFactor) (groups : object) : object :=
  match groups with
  | [] => []
  | (k', items) :: rest =>
      if decide (k' = k) then (k', items ++ [item]) :: rest
      else (k', items) :: push k item rest
  end.

(** The callback of [riskFactors.forEach].  A category is falsy when it is
    the empty string.  An inherited member is truthy and has no [push], so
    calling it throws a [TypeError]. *)
Definition group_item (item : RiskFactor) (st : object * list RiskFactor)
    : completion (object * list RiskFactor) :=
  let '(groups, uncategorized) := st in
  if decide (item.(category) = []) then
    Normal (groups, uncategorized ++ [item])
  else
    match own_property groups item.(category) with
    | Some _ => Normal (push item.(category) item groups, uncategorized)
    | None =>
        if bool_decide (item.(category) ∈ object_prototype_names) then Throw
        else Normal (groups ++ [(item.(category), [item])], uncategorized)
    end.

(** Property names that are array indices: the canonical decimal numerals
    below [2^32 - 1]. *)
Definition isDigit (c : N) : bool := (48 <=? c)%N && (c <=? 57)%N.

Definition digits_value (k : jsstring) : N :=
  foldl (λ v c, v * 10 + (c - 48))%N 0%N k.

Definition array_index (k : jsstring) : option N :=
  if forallb isDigit k
     && negb (bool_decide (k = []))
     && (bool_decide (k = [48%N]) || negb (bool_decide (head k = Some 48%N)))
     && (digits_value k <? 4294967295)%N
  then Some (digits_value k)
  else None.

(** [Object.entries]: array indices in ascending order, then the other names
    in order of creation. *)
Definition entries (groups : object) : object :=
  sort (λ a b, Z.of_N (default 0%N (array_index a.1))
               - Z.of_N (default 0%N (array_index b.1)))%Z
    (filter (λ e, is_Some (array_index e.1)) groups)
  ++ filter (λ e, ¬ is_Some (array_index e.1)) groups.

(** What is rendered: one section per entry of [groups], and the plain list
    below them, if any. *)
Record rendered : Type :=
  { sections : list (jsstring * list RiskFactor);
    ungrouped : option (list RiskFactor) }.

Definition renderRiskFactors (riskFactors : list RiskFactor)
    : completion (option rendered) :=
  if decide (length riskFactors = 0) then Normal None
  else
    st ← forEach group_item riskFactors ([], []);
    let '(groups, uncategorized) := st in
    let hasGroups := bool_decide (0 < length (fst <$> entries groups)) in
    Normal (Some
      {| sections := entries groups;
         ungrouped :=
           if negb hasGroups || bool_decide (0 < length uncategorized)
           then Some (if hasGroups then uncategorized else riskFactors)
           else None |}).

End RiskFactors.

(** * Derived notions *)

(** ** Edit distance, as the specification words it *)

(** One single-character insertion, deletion or substitution, anywhere in
    the string. *)
Inductive edit1 : jsstring → jsstring → Prop :=
| edit1_insert x s : edit1 s (x :: s)
| edit1_delete x s : edit1 (x :: s) s
| edit1_subst x y s : edit1 (x :: s) (y :: s)
| edit1_skip z s s' : edit1 s s' → edit1 (z :: s) (z :: s').

(** [transforms s t n]: [n] single-character edits turn [s] into [t]. *)
Inductive transforms : jsstring → jsstring → nat → Prop :=
| transforms_done s : transforms s s 0
| transforms_step s s' t n :
    edit1 s s' → transforms s' t n → transforms s t (S n).

(** The edit distance: the minimum number of single-character insertions,
    deletions or substitutions that transform [s] into [t]. *)
Definition edit_distance (s t : jsstring) (d : nat) : Prop :=
  transforms s t d ∧ ∀ n, transforms s t n → d ≤ n.

(** Alignments: the edits of a left-to-right pass over both strings. *)
Inductive aligned : jsstring → jsstring → nat → Prop :=
| aligned_nil : aligned [] [] 0
| aligned_keep x s t n : aligned s t n → aligned (x :: s) (x :: t) n
| aligned_subst x y s t n : aligned s t n → aligned (x :: s) (y :: t) (S n)
| aligned_delete x s t n : aligned s t n → aligned (x :: s) t (S n)
| aligned_insert y s t n : aligned s t n → aligned s (y :: t) (S n).

(** ** Prefixes and substrings *)

(** [q] occurs in [t] as a substring. *)
Definition substring_of (q t : jsstring) : Prop := ∃ l r, t = l ++ q ++ r.

(** ** The table [levenshteinDistance] fills *)

Section TableDefs.

Variables a b : jsstring.

(** [table i j]: the value the loops store in [matrix[i][j]]. *)
Fixpoint table (i : nat) : nat → nat :=
  match i with
  | 0 => λ j, j
  | S i' =>
      fix table_row (j : nat) : nat :=
        match j with
        | 0 => S i'
        | S j' =>
            if decide (charAt b i' = charAt a j') then table i' j'
            else S (table i' j') `min`
                   (S (table_row j') `min` S (table i' (S j')))
        end
  end.

Definition part_row (i n : nat) : row := (λ j, Some (table i j)) <$> seq 0 n.
Definition full_row (i : nat) : row := part_row i (S (length a)).
Definition fresh_row (i : nat) : option row := Some [Some i].
Definition rows_done (i : nat) : matrix := (λ k, Some (full_row k)) <$> seq 0 i.
Definition rows_fresh (i n : nat) : matrix := fresh_row <$> seq i n.

(** Row [i] holds its first [n] cells, the rows above are complete and the
    rows below are as the first loop left them. *)
Definition filling (i n : nat) : matrix :=
  rows_done i ++ Some (part_row i n) :: rows_fresh (S i) (length b - i).

End TableDefs.

(** ** Scores *)

(** [m] is the maximum of the numbers in [l]. *)
Definition is_maximum (m : Z) (l : list Z) : Prop :=
  m ∈ l ∧ ∀ x, x ∈ l → (x ≤ m)%Z.

#[global] Instance property_eq_dec : EqDecision property.
Proof. solve_decision. Defined.

(** A category survives the filter when [All] or the category itself is
    among the active ones. *)
Definition active (activeCategories : gset jsstring) (category : jsstring)
    : Prop :=
  All ∈ activeCategories ∨ category ∈ activeCategories.

#[global] Instance active_dec activeCategories category :
  Decision (active activeCategories category).
Proof. unfold active. apply _. Defined.

#[global] Typeclasses Opaque active.

(** The score as a number: [getMatchScore] never throws. *)
Definition matchScore (toLowerCase : jsstring → jsstring)
    (text query : jsstring) : Z :=
  match getMatchScore toLowerCase text query with
  | Normal z => z
  | Throw => 0
  end.

Section Scores.

Variable toLowerCase : jsstring → jsstring.
Variable synonyms : gmap jsstring (list jsstring).

(** The synonym phrases registered for a symptom; none when it has no
    entry. *)
Definition registered (symptom : jsstring) : list jsstring :=
  default [] (synonyms !! symptom).

(** The scores of a symptom's name and of each of its synonyms. *)
Definition candidate_scores (query symptom : jsstring) : list Z :=
  matchScore toLowerCase symptom query
  :: ((λ syn, matchScore toLowerCase syn query) <$> registered symptom).

Definition effectiveScore (query symptom : jsstring) : Z :=
  foldl Z.max (matchScore toLowerCase symptom query)
    ((λ syn, matchScore toLowerCase syn query) <$> registered symptom).

(** The lookup [SYNONYMS[item]] finds an array or nothing. *)
Definition plain_lookup (symptom : jsstring) : Prop :=
  get_property synonyms symptom ≠ Inherited.

End Scores.

Section Descending.

Context {A : Type} (key : A → Z).

(** The comparator [(a, b) => key(b) - key(a)]: descending by [key]. *)
Definition descending (a b : A) : Z := (key b - key a)%Z.

Definition key_ge (x y : A) : Prop := (key y ≤ key x)%Z.

End Descending.

Section Ranking.

Variable toLowerCase : jsstring → jsstring.
Variable synonyms : gmap jsstring (list jsstring).

(** What the item-level pass keeps of a category, in display order. *)
Definition ranked (query : jsstring) (symptoms : list jsstring)
    : list jsstring :=
  sort (descending (effectiveScore toLowerCase synonyms query))
    (filter (λ i, 0 < effectiveScore toLowerCase synonyms query i)%Z symptoms).

(** The value of the [map] callback on one category. *)
Definition entry_result (searchQuery : jsstring)
    (activeCategories : gset jsstring) (entry : jsstring * category_data)
    : option (jsstring * category_data) :=
  if decide (active activeCategories entry.1) then
    if decide (trim searchQuery = []) then Some entry
    else if decide (toLowerCase entry.1 = toLowerCase (trim searchQuery))
    then Some entry
    else
      let shown := ranked (trim searchQuery) entry.2.(items) in
      if decide (shown = []) then None
      else Some (entry.1, {| icon_of := entry.2.(icon_of); items := shown |})
  else None.

End Ranking.

(** ** Lower-casing functions that agree *)

Section Agree.

Variables lc1 lc2 : jsstring → jsstring.
Variable synonyms : gmap jsstring (list jsstring).

Definition agree (s : jsstring) : Prop := lc1 s = lc2 s.

(** A symptom whose name and registered synonyms are lower-cased alike. *)
Definition agree_symptom (symptom : jsstring) : Prop :=
  agree symptom ∧ Forall agree (registered synonyms symptom).

Definition agree_entry (entry : jsstring * category_data) : Prop :=
  agree entry.1 ∧ Forall agree_symptom entry.2.(items).

End Agree.

#[global] Instance plain_lookup_dec synonyms symptom :
  Decision (plain_lookup synonyms symptom).
Proof. unfold plain_lookup. apply _. Defined.

#[global] Instance isAscii_dec s : Decision (isAscii s).
Proof. unfold isAscii. apply _. Defined.

(** Category names, symptoms and synonyms are ASCII strings. *)
Definition ascii_symptom (symptom : jsstring) : Prop :=
  isAscii symptom ∧ Forall isAscii (registered SYNONYMS symptom).

Definition ascii_entry (entry : jsstring * category_data) : Prop :=
  isAscii entry.1 ∧ Forall ascii_symptom entry.2.(items).

#[global] Instance ascii_symptom_dec s : Decision (ascii_symptom s).
Proof. unfold ascii_symptom. apply _. Defined.

#[global] Instance ascii_entry_dec e : Decision (ascii_entry e).
Proof. unfold ascii_entry. apply _. Defined.

(** A lower-casing function that is right on ASCII strings. *)
Definition lowers_ascii (toLowerCase : jsstring → jsstring) : Prop :=
  ∀ s, isAscii s → toLowerCase s = asciiLower s.

(** A lower-casing function that leaves surrounding white space alone, as
    the built-in does: white space has no case. *)
Definition trims_alike (toLowerCase : jsstring → jsstring) : Prop :=
  ∀ s, toLowerCase (trim s) = trim (toLowerCase s).

(** A taxonomy none of whose symptoms is named like an inherited member of
    the synonym object. *)
Definition plain_taxonomy (categories : list (jsstring * category_data))
    (synonyms : gmap jsstring (list jsstring)) : Prop :=
  Forall (λ e, Forall (plain_lookup synonyms) e.2.(items)) categories.

(** ** Grouping, as a reader of the report sees it *)

(** The distinct elements of a list, in order of first occurrence. *)
Fixpoint first_occurrences {A : Type} `{EqDecision A} (l : list A) : list A :=
  match l with
  | [] => []
  | x :: l' => x :: filter (λ y, y ≠ x) (first_occurrences l')
  end.

(** The categories named by the risk factors. *)
Definition named_categories (riskFactors : list RiskFactors.RiskFactor)
    : list jsstring :=
  first_occurrences
    (filter (λ k, k ≠ []) (RiskFactors.category <$> riskFactors)).

Definition in_category (k : jsstring)
    (riskFactors : list RiskFactors.RiskFactor)
    : list RiskFactors.RiskFactor :=
  filter (λ i, i.(RiskFactors.category) = k) riskFactors.

Definition grouped (riskFactors : list RiskFactors.RiskFactor)
    : RiskFactors.object :=
  (λ k, (k, in_category k riskFactors)) <$> named_categories riskFactors.

(** A risk factor whose category is named like a member of
    [Object.prototype]. *)
Definition shadowed (i : RiskFactors.RiskFactor) : Prop :=
  i.(RiskFactors.category) ∈ object_prototype_names.

(** * Properties *)

Example lev_kitten :
  levenshteinDistance (str "kitten") (str "sitting") = Normal (Some 3).
Proof. vm_compute. reflexivity. Qed.

Example score_feve :
  getMatchScore asciiLower (str "Fever") (str "feve") = Normal 80%Z.
Proof. vm_compute. reflexivity. Qed.

(** ** Loops and arrays *)

Lemma bind_Normal {A B : Type} (x : A) (f : A → completion B) :
  Normal x ≫= f = f x.
Proof. reflexivity. Qed.

(** A loop whose state after [k] iterations is known to be [P k]. *)
Lemma for_loop_inv {St : Type} (P : nat → St) (body : nat → St → completion St)
    (n lo : nat) :
  (∀ k, lo ≤ k < lo + n → body k (P k) = Normal (P (S k))) →
  for_loop lo n body (P lo) = Normal (P (lo + n)).
Proof.
  revert lo. induction n as [|n IH]; intros lo Hbody; simpl.
  - by rewrite Nat.add_0_r.
  - rewrite Hbody by lia. simpl.
    rewrite IH; [f_equal; f_equal; lia|].
    intros k Hk. apply Hbody. lia.
Qed.

Lemma arr_set_end {A : Type} (v : option A) (l : list (option A)) (i : nat) :
  i = length l → arr_set i v l = l ++ [v].
Proof.
  intros ->. unfold arr_set. case_decide; [lia|].
  by rewrite Nat.sub_diag.
Qed.

Lemma arr_set_middle {A : Type} (v w : option A) (l1 l2 : list (option A))
    (i : nat) :
  i = length l1 → arr_set i v (l1 ++ w :: l2) = l1 ++ v :: l2.
Proof.
  intros ->. unfold arr_set. rewrite length_app. simpl.
  case_decide; [|lia].
  rewrite insert_app_r_alt by lia. by rewrite Nat.sub_diag.
Qed.

Lemma arr_get_middle {A : Type} (w : option A) (l1 l2 : list (option A))
    (i : nat) :
  i = length l1 → arr_get (l1 ++ w :: l2) i = w.
Proof. intros ->. unfold arr_get. by rewrite list_lookup_middle. Qed.

Lemma arr_set_head {A : Type} (v w : option A) (l : list (option A)) :
  arr_set 0 v (w :: l) = v :: l.
Proof. reflexivity. Qed.

Lemma the_row_head (r : row) (m : matrix) : the_row (Some r :: m) 0 = Normal r.
Proof. reflexivity. Qed.

(** ** The table [levenshteinDistance] fills *)

Section Table.

Variables a b : jsstring.

Lemma table_0_r i : table a b i 0 = i.
Proof. by destruct i. Qed.

Lemma table_S_S i j :
  table a b (S i) (S j)
  = if decide (charAt b i = charAt a j) then table a b i j
    else S (table a b i j) `min`
           (S (table a b (S i) j) `min` S (table a b i (S j))).
Proof. reflexivity. Qed.

Lemma length_part_row i n : length (part_row a b i n) = n.
Proof. unfold part_row. by rewrite length_fmap, length_seq. Qed.

Lemma length_rows_done i : length (rows_done a b i) = i.
Proof. unfold rows_done. by rewrite length_fmap, length_seq. Qed.

Lemma part_row_S i n :
  part_row a b i (S n) = part_row a b i n ++ [Some (table a b i n)].
Proof. unfold part_row. by rewrite seq_S, fmap_app. Qed.

Lemma arr_get_part_row i n j :
  j < n → arr_get (part_row a b i n) j = Some (table a b i j).
Proof.
  intros Hj. unfold arr_get, part_row.
  rewrite list_lookup_fmap, lookup_seq_lt by done. done.
Qed.

Lemma rows_done_S i :
  rows_done a b (S i) = rows_done a b i ++ [Some (full_row a b i)].
Proof. unfold rows_done. by rewrite seq_S, fmap_app. Qed.

Lemma the_row_filling i n :
  the_row (filling a b i n) i = Normal (part_row a b i n).
Proof.
  unfold the_row, filling.
  by rewrite arr_get_middle by (by rewrite length_rows_done).
Qed.

Lemma the_row_filling_prev i n :
  the_row (filling a b (S i) n) i = Normal (full_row a b i).
Proof.
  unfold the_row, filling. rewrite rows_done_S, <-app_assoc. simpl.
  by rewrite arr_get_middle by (by rewrite length_rows_done).
Qed.

Lemma arr_set_filling i n r :
  arr_set i (Some r) (filling a b i n)
  = rows_done a b i ++ Some r :: rows_fresh (S i) (length b - i).
Proof.
  unfold filling. by rewrite arr_set_middle by (by rewrite length_rows_done).
Qed.

Lemma filling_S i n :
  filling a b i (S n)
  = rows_done a b i ++ Some (part_row a b i n ++ [Some (table a b i n)])
                :: rows_fresh (S i) (length b - i).
Proof. unfold filling. by rewrite part_row_S. Qed.

(** A completed row is the start of the next one. *)
Lemma filling_next i :
  i < length b → filling a b i (S (length a)) = filling a b (S i) 1.
Proof.
  intros Hi. unfold filling. rewrite rows_done_S, <-app_assoc. simpl.
  do 2 f_equal. unfold rows_fresh.
  replace (length b - i) with (S (length b - S i)) by lia. simpl.
  done.
Qed.

(** One iteration of the inner loop. *)
Lemma inner_body_spec i j :
  1 ≤ j ≤ length a →
  (if decide (charAt b (S i - 1) = charAt a (j - 1)) then
     ri ← the_row (filling a b (S i) j) (S i);
     rp ← the_row (filling a b (S i) j) (S i - 1);
     Normal (arr_set (S i) (Some (arr_set j (arr_get rp (j - 1)) ri))
               (filling a b (S i) j))
   else
     ri ← the_row (filling a b (S i) j) (S i);
     rp ← the_row (filling a b (S i) j) (S i - 1);
     let v := min3 (succ_cell (arr_get rp (j - 1)))
                   (succ_cell (arr_get ri (j - 1)))
                   (succ_cell (arr_get rp j)) in
     Normal (arr_set (S i) (Some (arr_set j v ri)) (filling a b (S i) j)))
  = Normal (filling a b (S i) (S j)).
Proof.
  intros Hj. destruct j as [|j]; [lia|].
  replace (S i - 1) with i by lia. replace (S j - 1) with j by lia.
  rewrite the_row_filling, the_row_filling_prev.
  rewrite (filling_S (S i) (S j)), table_S_S.
  case_decide; rewrite !bind_Normal; cbv zeta; unfold full_row;
    rewrite !arr_get_part_row by lia;
    rewrite (arr_set_end _ (part_row a b (S i) (S j)))
      by (by rewrite length_part_row);
    by rewrite arr_set_filling.
Qed.

Theorem levenshteinDistance_table :
  levenshteinDistance a b = Normal (Some (table a b (length b) (length a))).
Proof.
  unfold levenshteinDistance. cbv zeta.
  (* first loop: one fresh row per index *)
  rewrite (for_loop_inv (λ k, rows_fresh 0 k)); last first.
  { intros k _. f_equal. unfold rows_fresh.
    rewrite arr_set_end by (by rewrite length_fmap, length_seq).
    by rewrite seq_S, fmap_app. }
  rewrite bind_Normal.
  (* second loop: row 0 *)
  rewrite (for_loop_inv
             (λ j, Some (part_row a b 0 (j `max` 1))
                   :: rows_fresh 1 (length b))); last first.
  { intros j _. rewrite the_row_head, bind_Normal, arr_set_head.
    destruct j as [|j]; [done|].
    replace (S j `max` 1) with (S j) by lia.
    replace (S (S j) `max` 1) with (S (S j)) by lia.
    rewrite arr_set_end by (by rewrite length_part_row).
    by rewrite (part_row_S 0 (S j)). }
  rewrite bind_Normal.
  replace ((0 + S (length a)) `max` 1) with (S (length a)) by lia.
  (* main loops *)
  replace (Some (part_row a b 0 (S (length a))) :: rows_fresh 1 (length b))
    with ((λ i, filling a b (pred i) (S (length a))) 1)
    by (unfold filling; simpl; by rewrite Nat.sub_0_r).
  rewrite (for_loop_inv (λ i, filling a b (pred i) (S (length a)))).
  - change (pred (1 + length b)) with (length b).
    rewrite bind_Normal, the_row_filling, bind_Normal.
    by rewrite arr_get_part_row by lia.
  - intros i Hi. destruct i as [|i]; [lia|].
    change (pred (S (S i))) with (S i). change (pred (S i)) with i.
    rewrite filling_next by lia.
    rewrite (for_loop_inv (λ j, filling a b (S i) j)); [done|].
    intros j Hj. apply inner_body_spec. lia.
Qed.

End Table.

(** ** Alignments and chains of edits *)

Create HintDb edits.
#[local] Hint Constructors edit1 transforms aligned : edits.

Ltac cost m := exists m; split; [lia | eauto 6 with edits].

Lemma aligned_refl s : aligned s s 0.
Proof. induction s; eauto with edits. Qed.

Lemma aligned_sym s t n : aligned s t n → aligned t s n.
Proof. induction 1; eauto with edits. Qed.

Lemma aligned_delete_all s : aligned s [] (length s).
Proof. induction s; simpl; eauto with edits. Qed.

Lemma aligned_insert_all t : aligned [] t (length t).
Proof. induction t; simpl; eauto with edits. Qed.

Lemma aligned_app s t n s' t' n' :
  aligned s t n → aligned s' t' n' → aligned (s ++ s') (t ++ t') (n + n').
Proof. induction 1; intros; simpl; eauto with edits. Qed.

Lemma aligned_reverse s t n : aligned s t n → aligned (reverse s) (reverse t) n.
Proof.
  induction 1 as [|x s t n _ IH|x y s t n _ IH|x s t n _ IH|y s t n _ IH];
    rewrite ?reverse_cons.
  - constructor.
  - replace n with (n + 0) by lia.
    apply aligned_app; eauto with edits.
  - replace (S n) with (n + 1) by lia.
    apply aligned_app; eauto with edits.
  - replace (S n) with (n + 1) by lia.
    rewrite <-(app_nil_r (reverse t)). apply aligned_app; eauto with edits.
  - replace (S n) with (n + 1) by lia.
    rewrite <-(app_nil_r (reverse s)). apply aligned_app; eauto with edits.
Qed.

(** Undoing one edit of the source costs an alignment at most one more. *)
Lemma aligned_edit1 s' t n :
  aligned s' t n → ∀ s, edit1 s s' → ∃ m, m ≤ S n ∧ aligned s t m.
Proof.
  induction 1
    as [|x s0 t0 n H IH|x y s0 t0 n H IH|x s0 t n H IH|y s' t0 n H IH];
    intros s He.
  - inversion He; subst. cost 1.
  - inversion He as [| |w ? ?|? s1 ? He']; subst;
      [cost (S n)..|destruct (IH _ He') as (m & ? & ?); cost m].
  - inversion He as [| |w ? ?|? s1 ? He']; subst;
      [cost (S n)|cost (S (S n))|cost (S n)
      |destruct (IH _ He') as (m & ? & ?); cost (S m)].
  - inversion He as [| |w ? ?|? s1 ? He']; subst;
      [cost n|cost (S (S n))|cost (S n)
      |destruct (IH _ He') as (m & ? & ?); cost (S m)].
  - destruct (IH _ He) as (m & ? & ?). cost (S m).
Qed.

Lemma aligned_uncons_l x s t n :
  aligned (x :: s) t n → ∃ m, m ≤ S n ∧ aligned s t m.
Proof. intros H. eapply aligned_edit1; eauto with edits. Qed.

Lemma aligned_uncons_r y s t n :
  aligned s (y :: t) n → ∃ m, m ≤ S n ∧ aligned s t m.
Proof.
  intros H%aligned_sym%aligned_uncons_l. destruct H as (m & ? & ?).
  exists m. split; [done|by apply aligned_sym].
Qed.

(** Chains of edits and alignments cost the same. *)
Lemma transforms_skip z s t n :
  transforms s t n → transforms (z :: s) (z :: t) n.
Proof. induction 1; eauto with edits. Qed.

Lemma transforms_snoc s t t' n :
  transforms s t n → edit1 t t' → transforms s t' (S n).
Proof. induction 1; eauto with edits. Qed.

Lemma aligned_transforms s t n : aligned s t n → transforms s t n.
Proof.
  induction 1 as [|x s t n _ IH|x y s t n _ IH|x s t n _ IH|y s t n _ IH].
  - constructor.
  - by apply transforms_skip.
  - eapply transforms_step; [apply (edit1_subst x y)|].
    by apply transforms_skip.
  - eauto with edits.
  - eapply transforms_snoc; eauto with edits.
Qed.

Lemma transforms_aligned s t n :
  transforms s t n → ∃ m, m ≤ n ∧ aligned s t m.
Proof.
  induction 1 as [s|s s' t n He _ (m & Hm & IH)].
  - exists 0. split; [done|apply aligned_refl].
  - destruct (aligned_edit1 _ _ _ IH _ He) as (m' & ? & ?).
    exists m'. split; [lia|done].
Qed.

Lemma edit_distance_aligned s t d :
  aligned s t d → (∀ n, aligned s t n → d ≤ n) → edit_distance s t d.
Proof.
  intros Hd Hmin. split; [by apply aligned_transforms|].
  intros n (m & ? & Hm%Hmin)%transforms_aligned. lia.
Qed.

Lemma aligned_length s t n :
  aligned s t n → length s ≤ length t + n ∧ length t ≤ length s + n.
Proof. induction 1; simpl; lia. Qed.

(** ** The table holds edit distances of prefixes *)

Section TableDistance.

Variables a b : jsstring.

Let pre (s : jsstring) (k : nat) : jsstring := reverse (take k s).

Lemma pre_S s k x : s !! k = Some x → pre s (S k) = x :: pre s k.
Proof.
  intros Hx. unfold pre. by rewrite (take_S_r _ _ x), reverse_snoc.
Qed.

Lemma length_pre s k : k ≤ length s → length (pre s k) = k.
Proof. intros. unfold pre. rewrite length_reverse, length_take. lia. Qed.

Lemma table_aligned i j :
  i ≤ length b → j ≤ length a →
  aligned (pre a j) (pre b i) (table a b i j).
Proof.
  revert j. induction i as [|i IHi]; intros j Hi Hj.
  { rewrite <-(length_pre a j) at 2 by done. apply aligned_delete_all. }
  induction j as [|j IHj].
  { change (table a b (S i) 0) with (S i).
    rewrite <-(length_pre b (S i)) at 2 by done. apply aligned_insert_all. }
  destruct (lookup_lt_is_Some_2 b i) as [y Hy]; [lia|].
  destruct (lookup_lt_is_Some_2 a j) as [x Hx]; [lia|].
  specialize (IHj ltac:(lia)).
  pose proof (IHi j ltac:(lia) ltac:(lia)) as Hdiag.
  pose proof (IHi (S j) ltac:(lia) ltac:(lia)) as Hup.
  rewrite table_S_S. unfold charAt. rewrite Hx, Hy.
  rewrite (pre_S a j x) in * by done. rewrite (pre_S b i y) in * by done.
  case_decide as Heq.
  - injection Heq as ->. by constructor.
  - destruct (Nat.min_spec (S (table a b i j))
                (S (table a b (S i) j) `min` S (table a b i (S j))))
      as [[_ ->]|[_ ->]]; [by constructor|].
    destruct (Nat.min_spec (S (table a b (S i) j)) (S (table a b i (S j))))
      as [[_ ->]|[_ ->]]; by constructor.
Qed.

Lemma table_minimal i j n :
  i ≤ length b → j ≤ length a →
  aligned (pre a j) (pre b i) n → table a b i j ≤ n.
Proof.
  revert j n. induction i as [|i IHi]; intros j n Hi Hj Hal.
  { apply aligned_length in Hal. rewrite !length_pre in Hal by lia.
    rewrite table_0_r || simpl; lia. }
  revert n Hal. induction j as [|j IHj]; intros n Hal.
  { apply aligned_length in Hal. rewrite !length_pre in Hal by lia.
    rewrite table_0_r || simpl; lia. }
  destruct (lookup_lt_is_Some_2 b i) as [y Hy]; [lia|].
  destruct (lookup_lt_is_Some_2 a j) as [x Hx]; [lia|].
  specialize (IHj ltac:(lia)).
  pose proof (λ m, IHi j m ltac:(lia) ltac:(lia)) as Hdiag.
  pose proof (λ m, IHi (S j) m ltac:(lia) ltac:(lia)) as Hup.
  rewrite table_S_S. unfold charAt. rewrite Hx, Hy.
  rewrite (pre_S a j x) in * by done. rewrite (pre_S b i y) in * by done.
  inversion Hal as [|? ? ? ? H|? ? ? ? m H|? ? ? m H|? ? ? m H]; subst.
  - rewrite decide_True by done. by apply Hdiag.
  - apply Hdiag in H. case_decide; lia.
  - case_decide as Heq.
    + injection Heq as ->.
      apply aligned_uncons_r in H as (m' & ? & H%Hdiag). lia.
    + apply IHj in H. lia.
  - case_decide as Heq.
    + injection Heq as ->.
      apply aligned_uncons_l in H as (m' & ? & H%Hdiag). lia.
    + apply Hup in H. lia.
Qed.

(** [levenshteinDistance] returns the edit distance between its arguments. *)
Theorem levenshteinDistance_edit_distance :
  ∃ d, levenshteinDistance a b = Normal (Some d) ∧ edit_distance a b d.
Proof.
  exists (table a b (length b) (length a)).
  split; [apply levenshteinDistance_table|].
  assert (pre a (length a) = reverse a) as Ha
    by (unfold pre; by rewrite take_ge).
  assert (pre b (length b) = reverse b) as Hb
    by (unfold pre; by rewrite take_ge).
  apply edit_distance_aligned.
  - pose proof (table_aligned (length b) (length a)) as H.
    rewrite Ha, Hb in H. apply aligned_reverse in H; [|done..].
    by rewrite !reverse_involutive in H.
  - intros n Hn%aligned_reverse. rewrite <-Ha, <-Hb in Hn.
    by apply table_minimal.
Qed.

End TableDistance.

Lemma edit_distance_0 s t : edit_distance s t 0 → s = t.
Proof. intros [H _]. by inversion H. Qed.

(** ** [startsWith] and [includes] decide prefix and substring *)

Lemma startsWith_prefix t q : startsWith t q = true ↔ q `prefix_of` t.
Proof.
  revert t. induction q as [|c q IH]; intros t; simpl.
  - split; [intros _; apply prefix_nil|done].
  - destruct t as [|d t].
    + split; [done|]. by intros ?%prefix_nil_not.
    + rewrite andb_true_iff, bool_decide_eq_true, IH. split.
      * intros [-> ?]. by apply prefix_cons.
      * intros H. split; [by apply prefix_cons_inv_1 in H
                         |by apply prefix_cons_inv_2 in H].
Qed.

Lemma includes_substring t q : includes t q = true ↔ substring_of q t.
Proof.
  induction t as [|d t IH].
  - simpl. rewrite orb_false_r, startsWith_prefix. split.
    + intros [r ->]. by exists [], r.
    + intros (l & r & H). symmetry in H.
      apply app_eq_nil in H as [-> [-> ->]%app_eq_nil]. done.
  - cbn [includes]. rewrite orb_true_iff, IH, startsWith_prefix. split.
    + intros [[r ->]|(l & r & ->)]; [by exists [], r|by exists (d :: l), r].
    + intros ([|x l] & r & H); simpl in H.
      * left. by exists r.
      * injection H as -> ->. right. by exists l, r.
Qed.

Lemma startsWith_includes t q : startsWith t q = true → includes t q = true.
Proof. destruct t; simpl; by intros ->. Qed.

(** ** [getMatchScore] *)

Section ScorerFacts.

Variable toLowerCase : jsstring → jsstring.

Lemma getMatchScore_total text query :
  getMatchScore toLowerCase text query
  = Normal (matchScore toLowerCase text query).
Proof.
  unfold matchScore, getMatchScore.
  destruct (levenshteinDistance_edit_distance
              (toLowerCase query) (toLowerCase text)) as (d & -> & _).
  rewrite bind_Normal. by repeat case_decide || case_match.
Qed.

Lemma getMatchScore_exact text query :
  toLowerCase text = toLowerCase query →
  getMatchScore toLowerCase text query = Normal 100%Z.
Proof. intros H. unfold getMatchScore. by rewrite decide_True. Qed.

Lemma getMatchScore_fuzzy text query :
  toLowerCase text ≠ toLowerCase query →
  startsWith (toLowerCase text) (toLowerCase query) = false →
  includes (toLowerCase text) (toLowerCase query) = false →
  ∃ d, edit_distance (toLowerCase query) (toLowerCase text) d ∧ 0 < d ∧
       getMatchScore toLowerCase text query =
       Normal (if decide (length (toLowerCase query) ≤ 2) then 0%Z
               else if decide (d ≤ if decide (length (toLowerCase query) ≤ 5)
                                   then 1 else 2)
                    then (50 - 10 * Z.of_nat d)%Z
                    else 0%Z).
Proof.
  intros Hne Hpre Hinc.
  destruct (levenshteinDistance_edit_distance
              (toLowerCase query) (toLowerCase text)) as (d & Hlev & Hd).
  exists d. split; [done|]. split.
  { destruct d; [|lia]. by apply edit_distance_0 in Hd. }
  unfold getMatchScore.
  rewrite decide_False, Hpre, Hinc, Hlev, bind_Normal by done.
  repeat case_decide; try lia; f_equal; lia.
Qed.

(** Only an exact match reaches 90. *)
Lemma getMatchScore_ge_90 text query :
  (90 ≤ matchScore toLowerCase text query)%Z
  ↔ toLowerCase text = toLowerCase query.
Proof.
  unfold matchScore. split.
  - intros H. destruct (decide (toLowerCase text = toLowerCase query))
      as [|Hne]; [done|exfalso].
    revert H. unfold getMatchScore. rewrite decide_False by done.
    destruct (levenshteinDistance_edit_distance
                (toLowerCase query) (toLowerCase text)) as (d & -> & _).
    rewrite bind_Normal.
    repeat case_decide || case_match; intros; simplify_eq; lia.
  - intros H. by rewrite getMatchScore_exact.
Qed.

End ScorerFacts.

(** ** The stable sort *)

Section SortFacts.

Context {A : Type} (key : A → Z).

Lemma sort_insert_perm x l : sort_insert (descending key) x l ≡ₚ x :: l.
Proof.
  induction l as [|y l IH]; simpl; [done|].
  case_decide; [done|]. rewrite IH. apply Permutation_swap.
Qed.

Lemma sort_perm l : sort (descending key) l ≡ₚ l.
Proof.
  induction l as [|x l IH]; simpl; [done|].
  by rewrite sort_insert_perm, IH.
Qed.

Lemma sort_insert_sorted x l :
  StronglySorted (key_ge key) l →
  StronglySorted (key_ge key) (sort_insert (descending key) x l).
Proof.
  induction 1 as [|y l Hl IH Hy]; simpl.
  - repeat constructor.
  - unfold descending at 1. case_decide as Hxy.
    + constructor; [by constructor|].
      constructor; [unfold key_ge; lia|].
      eapply Forall_impl; [done|]. unfold key_ge. intros; lia.
    + constructor; [done|].
      rewrite sort_insert_perm. constructor; [unfold key_ge; lia|done].
Qed.

Lemma sort_sorted l : StronglySorted (key_ge key) (sort (descending key) l).
Proof.
  induction l; simpl; [constructor|]. by apply sort_insert_sorted.
Qed.

(** Stability: within one key the order of the input is kept. *)
Lemma sort_insert_filter v x l :
  filter (λ y, key y = v) (sort_insert (descending key) x l)
  = filter (λ y, key y = v) (x :: l).
Proof.
  induction l as [|y l IH]; simpl; [done|].
  unfold descending at 1. case_decide as Hxy; [done|].
  rewrite (filter_cons _ y), IH, !(filter_cons _ x), !(filter_cons _ y).
  repeat case_decide; try done; lia.
Qed.

Lemma sort_stable v l :
  filter (λ y, key y = v) (sort (descending key) l) = filter (λ y, key y = v) l.
Proof.
  induction l as [|x l IH]; simpl; [done|].
  by rewrite sort_insert_filter, !filter_cons, IH.
Qed.

End SortFacts.

Lemma filter_fmap {A B : Type} (f : A → B) (P : B → Prop)
    `{!∀ y, Decision (P y)} (l : list A) :
  filter P (f <$> l) = f <$> filter (λ x, P (f x)) l.
Proof.
  induction l as [|x l IH]; [done|]. rewrite fmap_cons, !filter_cons.
  case_decide; by rewrite ?fmap_cons, IH.
Qed.

Lemma mapM_Normal {A B : Type} (f : A → completion B) (g : A → B) (l : list A) :
  Forall (λ x, f x = Normal (g x)) l → mapM f l = Normal (g <$> l).
Proof.
  induction 1 as [|x l Hx _ IH]; simpl; [done|].
  by rewrite Hx, bind_Normal, IH.
Qed.

Lemma sort_insert_fmap {A B : Type} (f : A → B) (c1 : A → A → Z)
    (c2 : B → B → Z) (x : A) (l : list A) :
  (∀ a b, c2 (f a) (f b) = c1 a b) →
  sort_insert c2 (f x) (f <$> l) = f <$> sort_insert c1 x l.
Proof.
  intros Hc. induction l as [|y l IH]; simpl; [done|].
  rewrite Hc. case_decide; [done|]. by rewrite fmap_cons, <-IH.
Qed.

Lemma sort_fmap {A B : Type} (f : A → B) (c1 : A → A → Z) (c2 : B → B → Z)
    (l : list A) :
  (∀ a b, c2 (f a) (f b) = c1 a b) → sort c2 (f <$> l) = f <$> sort c1 l.
Proof.
  intros Hc. unfold sort. induction l as [|x l IH]; [done|].
  rewrite fmap_cons. cbn [foldr]. by rewrite IH, (sort_insert_fmap f c1).
Qed.

(** ** The query engine *)

Lemma foldl_max_is_maximum (x : Z) (l : list Z) :
  is_maximum (foldl Z.max x l) (x :: l).
Proof.
  revert x. induction l as [|y l IH]; intros x; simpl.
  - split; [by left|]. intros z ->%list_elem_of_singleton. done.
  - destruct (IH (Z.max x y)) as [Hin Hmax]. split.
    + apply elem_of_cons in Hin as [Hin|Hin]; [|by do 2 right].
      rewrite Hin. destruct (Z.max_spec x y) as [[_ ->]|[_ ->]];
        [right|]; by left.
    + intros z Hz.
      assert (Z.max x y ≤ foldl Z.max (Z.max x y) l)%Z
        by (apply Hmax; by left).
      apply elem_of_cons in Hz as [->|Hz]; [lia|].
      apply elem_of_cons in Hz as [->|Hz]; [lia|].
      apply Hmax. by right.
Qed.


Section EngineFacts.

Variable toLowerCase : jsstring → jsstring.
Variable synonyms : gmap jsstring (list jsstring).

Lemma effectiveScore_maximum query symptom :
  is_maximum (effectiveScore toLowerCase synonyms query symptom)
    (candidate_scores toLowerCase synonyms query symptom).
Proof. apply foldl_max_is_maximum. Qed.

Lemma synonym_loop_spec query itemSynonyms maxScore :
  synonym_loop toLowerCase query itemSynonyms maxScore
  = Normal (foldl Z.max maxScore
              ((λ syn, matchScore toLowerCase syn query) <$> itemSynonyms)).
Proof.
  revert maxScore. induction itemSynonyms as [|syn rest IH]; intros m; simpl.
  - done.
  - rewrite getMatchScore_total, bind_Normal, IH. do 2 f_equal.
    case_decide; lia.
Qed.

Lemma score_item_spec query symptom :
  plain_lookup synonyms symptom →
  score_item toLowerCase synonyms query symptom
  = Normal {| item := symptom;
              score := effectiveScore toLowerCase synonyms query symptom |}.
Proof.
  unfold plain_lookup, score_item, effectiveScore, registered, get_property.
  intros Hplain. rewrite getMatchScore_total, bind_Normal.
  destruct (synonyms !! symptom) as [l|]; simpl.
  - by rewrite synonym_loop_spec.
  - by case_bool_decide.
Qed.

Lemma category_entry_inactive searchQuery activeCategories entry :
  ¬ active activeCategories entry.1 →
  category_entry toLowerCase synonyms searchQuery activeCategories entry
  = Normal None.
Proof.
  unfold active, category_entry, All. destruct entry as [category data].
  intros Hact. simpl in Hact.
  rewrite !bool_decide_eq_false_2 by tauto. done.
Qed.

Lemma category_entry_empty_query searchQuery activeCategories entry :
  active activeCategories entry.1 → trim searchQuery = [] →
  category_entry toLowerCase synonyms searchQuery activeCategories entry
  = Normal (Some entry).
Proof.
  unfold active, category_entry, All. destruct entry as [category data].
  intros Hact Hq. simpl in Hact. rewrite Hq.
  destruct Hact as [Hall|Hcat];
    [rewrite (bool_decide_eq_true_2 _ Hall)
    |rewrite (bool_decide_eq_true_2 _ Hcat), andb_false_r]; done.
Qed.

Lemma category_entry_spec searchQuery activeCategories entry :
  Forall (plain_lookup synonyms) entry.2.(items) →
  category_entry toLowerCase synonyms searchQuery activeCategories entry
  = Normal (entry_result toLowerCase synonyms searchQuery activeCategories
              entry).
Proof.
  intros Hplain. unfold entry_result.
  case_decide as Hact; [|by apply category_entry_inactive].
  case_decide as Hq; [by apply category_entry_empty_query|].
  unfold active, category_entry, All in *.
  destruct entry as [category data]. simpl in *.
  replace (negb (bool_decide (str "All" ∈ activeCategories))
           && negb (bool_decide (category ∈ activeCategories)))
    with false; last first.
  { destruct Hact as [H|H]; rewrite (bool_decide_eq_true_2 _ H);
      by rewrite ?andb_false_r. }
  rewrite decide_False by done.
  rewrite getMatchScore_total, bind_Normal.
  set (effective := effectiveScore toLowerCase synonyms (trim searchQuery)).
  rewrite (mapM_Normal _ (λ i, {| item := i; score := effective i |}))
    by (eapply Forall_impl; [done|]; intros; by apply score_item_spec).
  rewrite bind_Normal. cbv zeta.
  rewrite filter_fmap. simpl.
  rewrite (sort_fmap _ (descending effective)) by done. subst effective.
  fold (ranked toLowerCase synonyms (trim searchQuery) (items data)).
  rewrite length_fmap, <-list_fmap_compose.
  change (item ∘ _) with (@id jsstring). rewrite list_fmap_id.
  pose proof (getMatchScore_ge_90 toLowerCase category (trim searchQuery)).
  repeat case_decide; try done; try tauto.
  - destruct (ranked toLowerCase synonyms _ _); simpl in *; [lia|done].
  - destruct (ranked toLowerCase synonyms _ _); simpl in *; [done|lia].
Qed.

Lemma ranked_sorted query symptoms :
  let effective := effectiveScore toLowerCase synonyms query in
  StronglySorted (λ x y, effective y ≤ effective x)%Z
    (ranked toLowerCase synonyms query symptoms).
Proof. apply (sort_sorted (effectiveScore toLowerCase synonyms query)). Qed.

Lemma ranked_stable query symptoms v :
  let effective := effectiveScore toLowerCase synonyms query in
  filter (λ x, effective x = v) (ranked toLowerCase synonyms query symptoms)
  = if decide (0 < v)%Z
    then filter (λ x, effective x = v) symptoms
    else [].
Proof.
  unfold ranked. rewrite sort_stable, list_filter_filter.
  case_decide.
  - apply list_filter_iff. intros x. lia.
  - induction symptoms as [|x l IH]; [done|].
    rewrite filter_cons, IH. case_decide; [lia|done].
Qed.

(** The whole computation, when every symptom has a plain lookup. *)
Lemma filterAndRank_spec categories searchQuery activeCategories :
  Forall (λ e, Forall (plain_lookup synonyms) e.2.(items)) categories →
  filterAndRank toLowerCase categories synonyms searchQuery activeCategories
  = Normal (omap (entry_result toLowerCase synonyms searchQuery
                    activeCategories) categories).
Proof.
  intros Hplain. unfold filterAndRank.
  rewrite (mapM_Normal _ (entry_result toLowerCase synonyms searchQuery
                            activeCategories))
    by (eapply Forall_impl; [done|]; intros; by apply category_entry_spec).
  rewrite bind_Normal. f_equal.
  induction categories as [|e l IH]; [done|].
  apply Forall_cons in Hplain as [_ Hl]. cbn. rewrite <-(IH Hl).
  by destruct (entry_result toLowerCase synonyms _ _ e).
Qed.

End EngineFacts.

(** ** Only the lower-casing of the strings at hand matters *)

Lemma mapM_ext {A B : Type} (f g : A → completion B) (l : list A) :
  Forall (λ x, f x = g x) l → mapM f l = mapM g l.
Proof. induction 1 as [|x l Hx _ IH]; simpl; [done|]. by rewrite Hx, IH. Qed.

Section LowerCaseExt.

Variables lc1 lc2 : jsstring → jsstring.
Variable synonyms : gmap jsstring (list jsstring).

Lemma getMatchScore_ext text query :
  agree lc1 lc2 text → agree lc1 lc2 query →
  getMatchScore lc1 text query = getMatchScore lc2 text query.
Proof. unfold agree, getMatchScore. by intros -> ->. Qed.

Lemma synonym_loop_ext query itemSynonyms maxScore :
  agree lc1 lc2 query → Forall (agree lc1 lc2) itemSynonyms →
  synonym_loop lc1 query itemSynonyms maxScore
  = synonym_loop lc2 query itemSynonyms maxScore.
Proof.
  intros Hq Hl. revert maxScore.
  induction Hl as [|syn rest Hsyn _ IH]; intros m; simpl; [done|].
  rewrite (getMatchScore_ext syn query) by done.
  destruct (getMatchScore lc2 syn query); simpl; [apply IH|done].
Qed.

Lemma score_item_ext query symptom :
  agree lc1 lc2 query → agree_symptom lc1 lc2 synonyms symptom →
  score_item lc1 synonyms query symptom = score_item lc2 synonyms query symptom.
Proof.
  intros Hq [Hs Hsyn]. unfold score_item, registered, get_property in *.
  rewrite (getMatchScore_ext symptom query) by done.
  destruct (getMatchScore lc2 symptom query); simpl; [|done].
  destruct (synonyms !! symptom); simpl in *; [|by case_bool_decide].
  by rewrite synonym_loop_ext.
Qed.

Lemma category_entry_ext searchQuery activeCategories entry :
  agree lc1 lc2 (trim searchQuery) → agree_entry lc1 lc2 synonyms entry →
  category_entry lc1 synonyms searchQuery activeCategories entry
  = category_entry lc2 synonyms searchQuery activeCategories entry.
Proof.
  intros Hq [Hc Hitems]. destruct entry as [category data].
  unfold category_entry. simpl in *.
  rewrite (getMatchScore_ext category (trim searchQuery)) by done.
  rewrite (mapM_ext (score_item lc1 synonyms (trim searchQuery))
             (score_item lc2 synonyms (trim searchQuery))); [done|].
  eapply Forall_impl; [done|]. intros. by apply score_item_ext.
Qed.

Lemma filterAndRank_ext categories searchQuery activeCategories :
  agree lc1 lc2 (trim searchQuery) →
  Forall (agree_entry lc1 lc2 synonyms) categories →
  filterAndRank lc1 categories synonyms searchQuery activeCategories
  = filterAndRank lc2 categories synonyms searchQuery activeCategories.
Proof.
  intros Hq Hcats. unfold filterAndRank.
  rewrite (mapM_ext (category_entry lc1 synonyms searchQuery activeCategories)
             (category_entry lc2 synonyms searchQuery activeCategories));
    [done|].
  eapply Forall_impl; [done|]. intros. by apply category_entry_ext.
Qed.

End LowerCaseExt.

(** ** The compiled-in taxonomy *)

(** No symptom of the taxonomy is named like a member of [Object.prototype]. *)
Lemma CATEGORIES_plain :
  Forall (λ e, Forall (plain_lookup SYNONYMS) e.2.(items)) CATEGORIES.
Proof. apply (bool_decide_unpack _). by vm_compute. Qed.

Lemma CATEGORIES_ascii : Forall ascii_entry CATEGORIES.
Proof. apply (bool_decide_unpack _). by vm_compute. Qed.

Lemma displayedCategories_ascii toLowerCase searchQuery activeCategories :
  lowers_ascii toLowerCase → isAscii (trim searchQuery) →
  displayedCategories toLowerCase searchQuery activeCategories
  = displayedCategories asciiLower searchQuery activeCategories.
Proof.
  intros Hlc Hq. apply filterAndRank_ext; [by apply Hlc|].
  eapply Forall_impl; [apply CATEGORIES_ascii|].
  intros e [He Hitems]. split; [by apply Hlc|].
  eapply Forall_impl; [done|]. intros i [Hi Hsyn]. split; [by apply Hlc|].
  eapply Forall_impl; [done|]. intros. by apply Hlc.
Qed.

(** ** Whitespace-only queries *)

Lemma trimStart_whitespace s :
  Forall (λ c, isWhiteSpace c = true) s → trimStart s = [].
Proof. induction 1 as [|c s Hc _ IH]; simpl; [done|]. by rewrite Hc. Qed.

Lemma trim_whitespace s : Forall (λ c, isWhiteSpace c = true) s → trim s = [].
Proof. intros H. unfold trim. by rewrite (trimStart_whitespace s). Qed.

(** ** Lower-casing and trimming *)

Lemma isWhiteSpace_asciiLowerUnit c :
  isWhiteSpace (asciiLowerUnit c) = isWhiteSpace c.
Proof.
  unfold asciiLowerUnit.
  destruct (65 <=? c)%N eqn:Hlo; [|done].
  destruct (c <=? 90)%N eqn:Hhi; [|done]. simpl.
  apply N.leb_le in Hlo, Hhi. unfold isWhiteSpace.
  rewrite !bool_decide_eq_false_2
    by (rewrite !elem_of_cons, elem_of_nil; lia).
  simpl. destruct (N.leb_spec 8192 c), (N.leb_spec 8192 (c + 32)); lia.
Qed.

Lemma trimStart_asciiLower s :
  trimStart (asciiLower s) = asciiLower (trimStart s).
Proof.
  induction s as [|c s IH]; simpl; [done|].
  rewrite isWhiteSpace_asciiLowerUnit. by destruct (isWhiteSpace c).
Qed.

Lemma asciiLower_reverse s : asciiLower (reverse s) = reverse (asciiLower s).
Proof. unfold asciiLower. by rewrite <-!fmap_reverse. Qed.

Lemma asciiLower_trims_alike : trims_alike asciiLower.
Proof.
  intros s. unfold trim.
  by rewrite asciiLower_reverse, <-trimStart_asciiLower, asciiLower_reverse,
    <-trimStart_asciiLower.
Qed.

(** No category name has white space around it. *)
Lemma CATEGORIES_trimmed : Forall (λ e, trim e.1 = e.1) CATEGORIES.
Proof. apply (bool_decide_unpack _). by vm_compute. Qed.

(** ** The selector's transitions *)

Module SelectorFacts.
Import Selector.

(** Case analysis on the tests of [toggleCategory]. *)
Ltac toggle_cases :=
  unfold toggleCategory; repeat case_decide;
  repeat match goal with
    | H : size _ = 0 |- _ => apply size_empty_iff in H
    | H : size _ ≠ 0 |- _ => apply size_non_empty_iff in H
    end.

Lemma toggleCategory_well_formed cat s :
  well_formed s → well_formed (toggleCategory cat s).
Proof.
  unfold well_formed. intros Hs.
  toggle_cases; try (by left); right; set_solver.
Qed.

Lemma toggleCategory_from_All cat :
  cat ≠ All → toggleCategory cat {[ All ]} = {[ cat ]}.
Proof. intros. toggle_cases; set_solver. Qed.

Lemma toggleCategory_last cat :
  cat ≠ All → toggleCategory cat {[ cat ]} = {[ All ]}.
Proof. intros. toggle_cases; set_solver. Qed.

Lemma foldl_toggle_well_formed cats s :
  well_formed s → well_formed (foldl (λ s cat, toggleCategory cat s) s cats).
Proof.
  revert s. induction cats as [|cat cats IH]; intros s Hs; simpl; [done|].
  by apply IH, toggleCategory_well_formed.
Qed.

Lemma toggles_well_formed cats : well_formed (toggles cats).
Proof. apply foldl_toggle_well_formed. by left. Qed.

Lemma handleConfirm_resets {H : Type} (p : props H) (h : H) (st : state) :
  (handleConfirm p h st).2 = initial.
Proof. done. Qed.



(** Under [App] the component never gets past its closed first render: a
    run that does not throw leaves the dialog closed and the cells as they
    were at the start. *)
Lemma App_stays_closed (events : list (event app)) (m : mounted app) :
  run App start events = Normal m →
  m.(host_state).(isSymptomModalOpen) = false ∧ m.(cells) = initial.
Proof.
  assert (∀ m0 : mounted app,
    m0.(host_state).(isSymptomModalOpen) = false
    ∧ m0.(cells) = initial ∧ m0.(hooks) = 3 →
    run App m0 events = Normal m →
    m.(host_state).(isSymptomModalOpen) = false ∧ m.(cells) = initial)
    as Hinv.
  { induction events as [|e events IH]; intros m0 (Hclosed & Hcells & Hhooks);
      simpl.
    { by intros [= <-]. }
    destruct (step App m0 e) as [m1|] eqn:Hstep; [|done].
    rewrite bind_Normal. apply IH.
    destruct e; simpl in Hstep; rewrite ?Hclosed in Hstep; simpl in Hstep;
      try (injection Hstep as <-; done).
    unfold render in Hstep. rewrite Hhooks in Hstep. simpl in Hstep.
    destruct (isSymptomModalOpen (f (host_state m0))) eqn:Hf;
      simpl in Hstep; [done|].
    injection Hstep as <-. simpl. by rewrite Hf. }
  apply Hinv. done.
Qed.

End SelectorFacts.

(** * The claims *)

(** C10.  Every score is one of 0, 30, 40, 60, 80 and 100: the fuzzy tier
    never yields 50, because an edit distance of 0 means the lower-cased
    strings are equal, and never less than 30, because it admits a distance
    of at most 2. *)
Theorem getMatchScore_values (toLowerCase : jsstring → jsstring)
    (text query : jsstring) :
  ∃ z, getMatchScore toLowerCase text query = Normal z
       ∧ z ∈ [0; 30; 40; 60; 80; 100]%Z.
Proof.
  destruct (decide (toLowerCase text = toLowerCase query)) as [Heq|Hne].
  { exists 100%Z. split; [by apply getMatchScore_exact|set_solver]. }
  unfold getMatchScore. rewrite decide_False by done.
  destruct (startsWith _ _); [exists 80%Z; split; [done|set_solver]|].
  destruct (includes _ _); [exists 60%Z; split; [done|set_solver]|].
  case_decide; [|exists 0%Z; split; [done|set_solver]].
  destruct (levenshteinDistance_edit_distance
              (toLowerCase query) (toLowerCase text)) as (d & -> & Hd).
  rewrite bind_Normal.
  case_decide as Hle; [|exists 0%Z; split; [done|set_solver]].
  destruct d as [|[|[|d]]].
  - by apply edit_distance_0 in Hd.
  - exists 40%Z. split; [done|set_solver].
  - exists 30%Z. split; [done|set_solver].
  - case_decide; lia.
Qed.

(** C8.  Without an exact, prefix or substring match the score is 0 for a
    query of at most 2 units; for a longer query it is 50 minus 10 times the
    edit distance from query to candidate when that distance is within the
    tolerance (1 up to length 5, else 2), and 0 otherwise. *)
Theorem fuzzy_tier_score (toLowerCase : jsstring → jsstring)
    (text query : jsstring) :
  toLowerCase text ≠ toLowerCase query →
  ¬ toLowerCase query `prefix_of` toLowerCase text →
  ¬ substring_of (toLowerCase query) (toLowerCase text) →
  ∃ d, edit_distance (toLowerCase query) (toLowerCase text) d ∧
       getMatchScore toLowerCase text query =
       Normal (if decide (length (toLowerCase query) ≤ 2) then 0%Z
               else if decide (d ≤ if decide (length (toLowerCase query) ≤ 5)
                                   then 1 else 2)
                    then (50 - 10 * Z.of_nat d)%Z
                    else 0%Z).
Proof.
  intros Hne Hpre Hsub.
  destruct (getMatchScore_fuzzy toLowerCase text query) as (d & ? & _ & ?);
    [done| |  |by exists d].
  - apply not_true_is_false. by rewrite startsWith_prefix.
  - apply not_true_is_false. by rewrite includes_substring.
Qed.

Lemma fuzzy_tier_score_witness :
  ∃ d, edit_distance (asciiLower (str "fevr")) (asciiLower (str "Fever")) d ∧
       getMatchScore asciiLower (str "Fever") (str "fevr") =
       Normal (if decide (length (asciiLower (str "fevr")) ≤ 2) then 0%Z
               else if decide (d ≤ if decide (length (asciiLower (str "fevr"))
                                              ≤ 5)
                                   then 1 else 2)
                    then (50 - 10 * Z.of_nat d)%Z
                    else 0%Z).
Proof.
  apply (fuzzy_tier_score asciiLower (str "Fever") (str "fevr")).
  - by vm_compute.
  - rewrite <-startsWith_prefix. by vm_compute.
  - rewrite <-includes_substring. by vm_compute.
Defined.

(** C9.  No input makes the engine throw: [levenshteinDistance] returns a
    number, [getMatchScore] a score and [displayedCategories] a list, for
    all strings and every selection of active categories. *)
Theorem engine_never_throws (toLowerCase : jsstring → jsstring) :
  (∀ a b, ∃ d, levenshteinDistance a b = Normal (Some d))
  ∧ (∀ text query, ∃ z, getMatchScore toLowerCase text query = Normal z)
  ∧ (∀ searchQuery activeCategories,
       ∃ shown, displayedCategories toLowerCase searchQuery activeCategories
                = Normal shown).
Proof.
  split; [|split].
  - intros a b. eexists. apply levenshteinDistance_table.
  - intros text query. eexists. apply getMatchScore_total.
  - intros q act. eexists. apply filterAndRank_spec, CATEGORIES_plain.
Qed.

(** C7.  Starting from [{All}], no sequence of category toggles empties the
    selection; toggling a category while [All] is present removes [All] and
    adds the category; toggling off the only category resets to [{All}]; and
    toggling [All] sets the selection to [{All}]. *)
Theorem activeCategories_never_empty (cats : list jsstring) :
  let s := Selector.toggles cats in
  s ≠ ∅
  ∧ (∀ cat, cat ≠ All → All ∈ s →
       Selector.toggleCategory cat s = (s ∖ {[ All ]}) ∪ {[ cat ]}
       ∧ (All ∉ Selector.toggleCategory cat s)
       ∧ (cat ∈ Selector.toggleCategory cat s))
  ∧ (∀ cat, cat ≠ All → s = {[ cat ]} →
       Selector.toggleCategory cat s = {[ All ]})
  ∧ Selector.toggleCategory All s = {[ All ]}.
Proof.
  intros s. pose proof (SelectorFacts.toggles_well_formed cats) as Hs.
  fold s in Hs. clearbody s. split; [|split; [|split]].
  - destruct Hs as [->|[? _]]; [set_solver|done].
  - intros cat Hcat Hall.
    destruct Hs as [->|[_ ?]]; [|done].
    rewrite SelectorFacts.toggleCategory_from_All by done. set_solver.
  - intros cat Hcat ->. by apply SelectorFacts.toggleCategory_last.
  - unfold Selector.toggleCategory. by rewrite decide_True.
Qed.

Lemma activeCategories_never_empty_witness :
  Selector.toggles [str "Pain"; str "Skin"; str "Pain"] ≠ ∅
  ∧ Selector.toggleCategory (str "Pain") (Selector.toggles [])
    = {[ str "Pain" ]}
  ∧ Selector.toggleCategory (str "Skin")
      (Selector.toggles [str "Pain"; str "Skin"; str "Pain"])
    = {[ All ]}.
Proof.
  split; [|split].
  - apply (activeCategories_never_empty [str "Pain"; str "Skin"; str "Pain"]).
  - destruct (activeCategories_never_empty []) as (_ & Hadd & _).
    destruct (Hadd (str "Pain")) as (-> & _); [done| |by vm_compute].
    apply (bool_decide_unpack _). by vm_compute.
  - destruct (activeCategories_never_empty
                [str "Pain"; str "Skin"; str "Pain"]) as (_ & _ & Hlast & _).
    apply Hlast; [done|]. by vm_compute.
Defined.


(** C4.  For an empty or whitespace-only query the result is the taxonomy
    restricted to the active categories: each with its data untouched, in
    declaration order, whatever the lower-casing and the synonym table. *)
Theorem empty_query_returns_active_categories
    (toLowerCase : jsstring → jsstring)
    (categories : list (jsstring * category_data))
    (synonyms : gmap jsstring (list jsstring))
    (searchQuery : jsstring) (activeCategories : gset jsstring) :
  Forall (λ c, isWhiteSpace c = true) searchQuery →
  filterAndRank toLowerCase categories synonyms searchQuery activeCategories
  = Normal (filter (λ e, active activeCategories e.1) categories).
Proof.
  intros Hq%trim_whitespace. unfold filterAndRank.
  rewrite (mapM_Normal _ (λ e, if decide (active activeCategories e.1)
                               then Some e else None)).
  - rewrite bind_Normal. f_equal.
    induction categories as [|e l IH]; [done|].
    rewrite fmap_cons, filter_cons, <-IH.
    change (omap id (?x :: ?l)) with
      (match id x with Some y => y :: omap id l | None => omap id l end).
    cbv beta. by destruct (decide (active activeCategories e.1)).
  - apply Forall_forall. intros e _. case_decide.
    + by apply category_entry_empty_query.
    + by apply category_entry_inactive.
Qed.

Lemma empty_query_returns_active_categories_witness :
  filterAndRank asciiLower CATEGORIES SYNONYMS (str "  ") {[ str "Skin" ]}
  = Normal (filter (λ e, active {[ str "Skin" ]} e.1) CATEGORIES).
Proof.
  apply (empty_query_returns_active_categories asciiLower CATEGORIES SYNONYMS
           (str "  ") {[ str "Skin" ]}).
  by repeat constructor.
Defined.

(** C5.  For a non-empty trimmed query and an active category whose name
    scores below 90: the scoring pass gives each symptom the maximum of the
    scores of its name and of its registered synonyms; the category is shown
    with the symptoms of positive effective score, highest first, symptoms of
    equal score in declaration order (and is dropped when none is left). *)
Theorem item_level_ranking (toLowerCase : jsstring → jsstring)
    (searchQuery : jsstring) (activeCategories : gset jsstring)
    (category : jsstring) (data : category_data) :
  (category, data) ∈ CATEGORIES →
  active activeCategories category →
  trim searchQuery ≠ [] →
  (matchScore toLowerCase category (trim searchQuery) < 90)%Z →
  let query := trim searchQuery in
  let effective := effectiveScore toLowerCase SYNONYMS query in
  (∀ symptom, is_maximum (effective symptom)
                (candidate_scores toLowerCase SYNONYMS query symptom))
  ∧ mapM (score_item toLowerCase SYNONYMS query) data.(items)
    = Normal ((λ i, {| item := i; score := effective i |}) <$> data.(items))
  ∧ ∃ shown,
      category_entry toLowerCase SYNONYMS searchQuery activeCategories
        (category, data)
      = Normal (if decide (shown = []) then None
                else Some (category,
                           {| icon_of := data.(icon_of); items := shown |}))
      ∧ StronglySorted (λ x y, effective y ≤ effective x)%Z shown
      ∧ ∀ v, filter (λ x, effective x = v) shown
             = if decide (0 < v)%Z
               then filter (λ x, effective x = v) data.(items)
               else [].
Proof.
  intros Hin Hact Hq Hscore query effective.
  assert (Forall (plain_lookup SYNONYMS) data.(items)) as Hplain.
  { pose proof CATEGORIES_plain as H. rewrite Forall_forall in H.
    apply (H _ Hin). }
  split; [intros; apply effectiveScore_maximum|]. split.
  { apply mapM_Normal. eapply Forall_impl; [done|].
    intros. by apply score_item_spec. }
  exists (ranked toLowerCase SYNONYMS query data.(items)).
  split; [|split].
  - rewrite category_entry_spec by done. unfold entry_result. simpl.
    rewrite decide_True, decide_False by done.
    rewrite decide_False; [done|].
    intros Heq%getMatchScore_ge_90. lia.
  - apply ranked_sorted.
  - apply ranked_stable.
Qed.

Lemma item_level_ranking_witness :
  let toLowerCase := asciiLower in
  let searchQuery := str "pain" in
  let activeCategories : gset jsstring := {[ All ]} in
  let category := str "Digestive" in
  let data :=
    {| icon_of := Activity;
       items := map str ["Nausea"; "Vomiting"; "Diarrhea"; "Abdominal pain";
                         "Bloating"; "Heartburn"; "Loss of appetite";
                         "Indigestion"; "Constipation"]%string |} in
  let query := trim searchQuery in
  let effective := effectiveScore toLowerCase SYNONYMS query in
  (∀ symptom, is_maximum (effective symptom)
                (candidate_scores toLowerCase SYNONYMS query symptom))
  ∧ mapM (score_item toLowerCase SYNONYMS query) data.(items)
    = Normal ((λ i, {| item := i; score := effective i |}) <$> data.(items))
  ∧ ∃ shown,
      category_entry toLowerCase SYNONYMS searchQuery activeCategories
        (category, data)
      = Normal (if decide (shown = []) then None
                else Some (category,
                           {| icon_of := data.(icon_of); items := shown |}))
      ∧ StronglySorted (λ x y, effective y ≤ effective x)%Z shown
      ∧ ∀ v, filter (λ x, effective x = v) shown
             = if decide (0 < v)%Z
               then filter (λ x, effective x = v) data.(items)
               else [].
Proof.
  intros toLowerCase searchQuery activeCategories category data.
  apply (item_level_ranking toLowerCase searchQuery activeCategories
           category data).
  - apply (bool_decide_unpack _). by vm_compute.
  - apply (bool_decide_unpack _). by vm_compute.
  - by vm_compute.
  - by vm_compute.
Defined.

(** C6.  When the query, as the engine reads it (trimmed), equals the name
    of an active category up to case, the result contains that category with
    its data untouched: all of its symptoms, whatever their own scores. *)
Theorem exact_category_match_returns_all (toLowerCase : jsstring → jsstring)
    (searchQuery : jsstring) (activeCategories : gset jsstring)
    (category : jsstring) (data : category_data) :
  (category, data) ∈ CATEGORIES →
  active activeCategories category →
  toLowerCase (trim searchQuery) = toLowerCase category →
  ∃ shown, displayedCategories toLowerCase searchQuery activeCategories
           = Normal shown
           ∧ (category, data) ∈ shown.
Proof.
  intros Hin Hact Heq. eexists. split.
  - apply filterAndRank_spec, CATEGORIES_plain.
  - apply list_elem_of_omap. exists (category, data). split; [done|].
    unfold entry_result. simpl. rewrite decide_True by done.
    case_decide; [done|]. by rewrite decide_True.
Qed.

Lemma exact_category_match_returns_all_witness :
  let toLowerCase := asciiLower in
  let searchQuery := str " pain" in
  let activeCategories : gset jsstring := {[ str "Skin"; str "Pain" ]} in
  let category := str "Pain" in
  let data :=
    {| icon_of := Zap;
       items := map str ["Back pain"; "Joint pain"; "Muscle ache"; "Neck pain";
                         "Sharp pain"; "Dull ache"]%string |} in
  ∃ shown, displayedCategories toLowerCase searchQuery activeCategories
           = Normal shown
           ∧ (category, data) ∈ shown.
Proof.
  intros toLowerCase searchQuery activeCategories category data.
  apply (exact_category_match_returns_all toLowerCase searchQuery
           activeCategories category data).
  - apply (bool_decide_unpack _). by vm_compute.
  - apply (bool_decide_unpack _). by vm_compute.
  - by vm_compute.
Defined.

(** The same for the query as typed, when lower-casing leaves the white
    space around a string alone. *)
Lemma exact_raw_query_match_returns_all (toLowerCase : jsstring → jsstring)
    (searchQuery : jsstring) (activeCategories : gset jsstring)
    (category : jsstring) (data : category_data) :
  trims_alike toLowerCase →
  (category, data) ∈ CATEGORIES →
  active activeCategories category →
  toLowerCase searchQuery = toLowerCase category →
  ∃ shown, displayedCategories toLowerCase searchQuery activeCategories
           = Normal shown
           ∧ (category, data) ∈ shown.
Proof.
  intros Htrim Hin Hact Heq.
  assert (toLowerCase (trim searchQuery) = toLowerCase category) as Heq'.
  { pose proof CATEGORIES_trimmed as Hc. rewrite Forall_forall in Hc.
    specialize (Hc _ Hin). simpl in Hc.
    by rewrite Htrim, Heq, <-Htrim, Hc. }
  eexists. split; [apply filterAndRank_spec, CATEGORIES_plain|].
  apply list_elem_of_omap. exists (category, data). split; [done|].
  unfold entry_result. simpl. rewrite decide_True by done.
  case_decide; [done|]. by rewrite decide_True.
Qed.

(** "Dull ache" scores 0 against "pain" and is shown all the same. *)
Example dull_ache_shown :
  effectiveScore asciiLower SYNONYMS (str "pain") (str "Dull ache") = 0%Z
  ∧ displayedCategories asciiLower (str "pain") {[ str "Pain" ]}
    = Normal [(str "Pain",
               {| icon_of := Zap;
                  items := map str ["Back pain"; "Joint pain"; "Muscle ache";
                                    "Neck pain"; "Sharp pain";
                                    "Dull ache"]%string |})].
Proof. by vm_compute. Qed.

(** C2, as stated, fails: "resp" is a prefix of "Respiratory", yet the
    category name scores 80, below the threshold, and the category is not
    shown at all because none of its symptoms matches. *)
Lemma prefix_query_is_filtered :
  asciiLower (str "resp") `prefix_of` asciiLower (str "Respiratory")
  ∧ getMatchScore asciiLower (str "Respiratory") (str "resp") = Normal 80%Z
  ∧ displayedCategories asciiLower (str "resp") {[ All ]} = Normal [].
Proof.
  split; [|by vm_compute].
  apply startsWith_prefix. by vm_compute.
Qed.

(** C2, amended.  The bypass triggers exactly when the trimmed query equals
    the category name up to case: only then does the name score reach 90 (it
    is 100), and the category is shown with its data untouched.  A query that
    is only a prefix of the name scores 80 and the category goes through the
    item-level pass. *)
Theorem category_bypass_exact_only (toLowerCase : jsstring → jsstring)
    (searchQuery : jsstring) (activeCategories : gset jsstring)
    (category : jsstring) (data : category_data) :
  (category, data) ∈ CATEGORIES →
  active activeCategories category →
  trim searchQuery ≠ [] →
  let query := trim searchQuery in
  let categoryScore := matchScore toLowerCase category query in
  getMatchScore toLowerCase category query = Normal categoryScore
  ∧ ((90 ≤ categoryScore)%Z ↔ toLowerCase category = toLowerCase query)
  ∧ (toLowerCase category = toLowerCase query →
       categoryScore = 100%Z
       ∧ category_entry toLowerCase SYNONYMS searchQuery activeCategories
           (category, data)
         = Normal (Some (category, data)))
  ∧ (toLowerCase category ≠ toLowerCase query →
     toLowerCase query `prefix_of` toLowerCase category →
       categoryScore = 80%Z
       ∧ category_entry toLowerCase SYNONYMS searchQuery activeCategories
           (category, data)
         = Normal
             (let shown := ranked toLowerCase SYNONYMS query data.(items) in
              if decide (shown = []) then None
              else Some (category,
                         {| icon_of := data.(icon_of); items := shown |}))).
Proof.
  intros Hin Hact Hq query categoryScore.
  assert (Forall (plain_lookup SYNONYMS) data.(items)) as Hplain.
  { pose proof CATEGORIES_plain as H. rewrite Forall_forall in H.
    apply (H _ Hin). }
  split; [apply getMatchScore_total|].
  split; [apply getMatchScore_ge_90|]. split.
  - intros Heq. split.
    + unfold categoryScore, matchScore. by rewrite getMatchScore_exact.
    + rewrite category_entry_spec by done. unfold entry_result. simpl.
      by rewrite decide_True, decide_False, decide_True.
  - intros Hne Hpre. split.
    + unfold categoryScore, matchScore, getMatchScore.
      rewrite decide_False by done.
      apply startsWith_prefix in Hpre. by rewrite Hpre.
    + rewrite category_entry_spec by done. unfold entry_result. simpl.
      by rewrite decide_True, decide_False, decide_False.
Qed.

Lemma category_bypass_exact_only_witness :
  let toLowerCase := asciiLower in
  let searchQuery := str "RESPIRATORY " in
  let activeCategories : gset jsstring := {[ All ]} in
  let category := str "Respiratory" in
  let data :=
    {| icon_of := Wind;
       items := map str ["Cough"; "Shortness of breath"; "Sore throat";
                         "Runny nose"; "Wheezing"; "Chest congestion";
                         "Congestion"; "Sneezing"]%string |} in
  let query := trim searchQuery in
  let categoryScore := matchScore toLowerCase category query in
  getMatchScore toLowerCase category query = Normal categoryScore
  ∧ ((90 ≤ categoryScore)%Z ↔ toLowerCase category = toLowerCase query)
  ∧ (toLowerCase category = toLowerCase query →
       categoryScore = 100%Z
       ∧ category_entry toLowerCase SYNONYMS searchQuery activeCategories
           (category, data)
         = Normal (Some (category, data)))
  ∧ (toLowerCase category ≠ toLowerCase query →
     toLowerCase query `prefix_of` toLowerCase category →
       categoryScore = 80%Z
       ∧ category_entry toLowerCase SYNONYMS searchQuery activeCategories
           (category, data)
         = Normal
             (let shown := ranked toLowerCase SYNONYMS query data.(items) in
              if decide (shown = []) then None
              else Some (category,
                         {| icon_of := data.(icon_of); items := shown |}))).
Proof.
  intros toLowerCase searchQuery activeCategories category data.
  apply (category_bypass_exact_only toLowerCase searchQuery activeCategories
           category data).
  - apply (bool_decide_unpack _). by vm_compute.
  - apply (bool_decide_unpack _). by vm_compute.
  - by vm_compute.
Defined.

(** C1, as stated, fails: the score of "Fever" for "feve" is not 40. *)
Lemma feve_score_is_not_40 :
  getMatchScore asciiLower (str "Fever") (str "feve") ≠ Normal 40%Z.
Proof. by vm_compute. Qed.

(** C1, amended.  The edit distance from "feve" to "fever" is 1, but "feve"
    is a prefix of "fever", so the prefix tier answers first: the score is
    80, and "Fever" is shown under "General" whenever that category is
    active. *)
Theorem feve_scenario (toLowerCase : jsstring → jsstring)
    (activeCategories : gset jsstring) :
  lowers_ascii toLowerCase →
  active activeCategories (str "General") →
  edit_distance (toLowerCase (str "feve")) (toLowerCase (str "Fever")) 1
  ∧ toLowerCase (str "feve") `prefix_of` toLowerCase (str "Fever")
  ∧ getMatchScore toLowerCase (str "Fever") (str "feve") = Normal 80%Z
  ∧ ∃ shown,
      displayedCategories toLowerCase (str "feve") activeCategories
      = Normal shown
      ∧ (str "General", {| icon_of := Thermometer; items := [str "Fever"] |})
        ∈ shown.
Proof.
  intros Hlc Hact.
  assert (isAscii (str "feve")) as Hq
    by (apply (bool_decide_unpack _); by vm_compute).
  assert (isAscii (str "Fever")) as Ht
    by (apply (bool_decide_unpack _); by vm_compute).
  split; [|split; [|split]].
  - rewrite (Hlc _ Hq), (Hlc _ Ht).
    destruct (levenshteinDistance_edit_distance
                (asciiLower (str "feve")) (asciiLower (str "Fever")))
      as (d & Hd & Hdist).
    vm_compute in Hd. by injection Hd as <-.
  - rewrite (Hlc _ Hq), (Hlc _ Ht). apply startsWith_prefix. by vm_compute.
  - rewrite (getMatchScore_ext toLowerCase asciiLower)
      by (by apply Hlc). by vm_compute.
  - rewrite displayedCategories_ascii by done. unfold displayedCategories.
    rewrite filterAndRank_spec by apply CATEGORIES_plain.
    eexists. split; [done|]. apply list_elem_of_omap.
    exists (str "General",
            {| icon_of := Thermometer;
               items := map str ["Fever"; "Fatigue"; "Chills"; "Weakness";
                                 "Dizziness"; "Insomnia"; "Weight loss";
                                 "Night sweats"; "Sweating"]%string |}).
    split; [apply (bool_decide_unpack _); by vm_compute|].
    unfold entry_result. rewrite decide_True by done. by vm_compute.
Qed.

Lemma feve_scenario_witness :
  edit_distance (asciiLower (str "feve")) (asciiLower (str "Fever")) 1
  ∧ asciiLower (str "feve") `prefix_of` asciiLower (str "Fever")
  ∧ getMatchScore asciiLower (str "Fever") (str "feve") = Normal 80%Z
  ∧ ∃ shown,
      displayedCategories asciiLower (str "feve") {[ All ]} = Normal shown
      ∧ (str "General", {| icon_of := Thermometer; items := [str "Fever"] |})
        ∈ shown.
Proof.
  apply (feve_scenario asciiLower {[ All ]}).
  - by intros s _.
  - apply (bool_decide_unpack _). by vm_compute.
Defined.

(** With every category active, "Fever" is all that is shown for "feve". *)
Example feve_results :
  displayedCategories asciiLower (str "feve") {[ All ]}
  = Normal [(str "General",
             {| icon_of := Thermometer; items := [str "Fever"] |})].
Proof. by vm_compute. Qed.

(** * Further properties of the code *)

(** ** [levenshteinDistance] is a metric *)

Lemma edit1_sym s t : edit1 s t → edit1 t s.
Proof. induction 1; eauto with edits. Qed.

Lemma transforms_sym s t n : transforms s t n → transforms t s n.
Proof.
  induction 1 as [s|s s' t n He _ IH]; [constructor|].
  eapply transforms_snoc; [done|]. by apply edit1_sym.
Qed.

Lemma transforms_trans s t u n m :
  transforms s t n → transforms t u m → transforms s u (n + m).
Proof. induction 1; simpl; eauto with edits. Qed.

Lemma edit_distance_unique s t d d' :
  edit_distance s t d → edit_distance s t d' → d = d'.
Proof.
  intros [H1 Hmin1] [H2 Hmin2]. apply Hmin1 in H2. apply Hmin2 in H1. lia.
Qed.

Lemma edit_distance_sym s t d : edit_distance s t d → edit_distance t s d.
Proof.
  intros [H Hmin]. split; [by apply transforms_sym|].
  intros n Hn. by apply Hmin, transforms_sym.
Qed.

(** Substitute along the common length, then delete or insert the rest. *)
Lemma aligned_upper s t : ∃ n, aligned s t n ∧ n ≤ length s `max` length t.
Proof.
  revert t. induction s as [|x s IH]; intros t.
  - exists (length t). split; [apply aligned_insert_all|simpl; lia].
  - destruct t as [|y t].
    + exists (length (x :: s)). split; [apply aligned_delete_all|simpl; lia].
    + destruct (IH t) as (n & Hn & Hle). exists (S n).
      split; [by constructor|simpl; lia].
Qed.

(** X1.  The distance does not depend on the order of its arguments. *)
Theorem levenshteinDistance_symmetric (a b : jsstring) :
  levenshteinDistance a b = levenshteinDistance b a.
Proof.
  destruct (levenshteinDistance_edit_distance a b) as (d & -> & Hd).
  destruct (levenshteinDistance_edit_distance b a) as (d' & -> & Hd').
  do 2 f_equal. apply edit_distance_sym in Hd'.
  by apply (edit_distance_unique a b).
Qed.

(** X2.  The distance is 0 exactly between equal strings. *)
Theorem levenshteinDistance_zero (a b : jsstring) :
  levenshteinDistance a b = Normal (Some 0) ↔ a = b.
Proof.
  destruct (levenshteinDistance_edit_distance a b) as (d & Hlev & Hd).
  rewrite Hlev. split.
  - intros [= ->]. by apply edit_distance_0.
  - intros ->. destruct Hd as [_ Hmin].
    specialize (Hmin 0 (transforms_done b)).
    do 2 f_equal. lia.
Qed.

(** X3.  The triangle inequality: going through a third string is never
    shorter. *)
Theorem levenshteinDistance_triangle (a b c : jsstring) :
  ∃ ab bc ac,
    levenshteinDistance a b = Normal (Some ab)
    ∧ levenshteinDistance b c = Normal (Some bc)
    ∧ levenshteinDistance a c = Normal (Some ac)
    ∧ ac ≤ ab + bc.
Proof.
  destruct (levenshteinDistance_edit_distance a b) as (ab & Hab & [Tab _]).
  destruct (levenshteinDistance_edit_distance b c) as (bc & Hbc & [Tbc _]).
  destruct (levenshteinDistance_edit_distance a c) as (ac & Hac & [_ Hmin]).
  exists ab, bc, ac. repeat split; try done.
  apply Hmin. by eapply transforms_trans.
Qed.

(** X4.  The distance lies between the difference of the lengths and the
    larger length; so the distance from the empty string is the length of
    the other string. *)
Theorem levenshteinDistance_bounds (a b : jsstring) :
  ∃ d, levenshteinDistance a b = Normal (Some d)
       ∧ length a - length b ≤ d
       ∧ length b - length a ≤ d
       ∧ d ≤ length a `max` length b.
Proof.
  destruct (levenshteinDistance_edit_distance a b) as (d & Hlev & [Hd Hmin]).
  exists d. split; [done|].
  apply transforms_aligned in Hd as (m & Hm & Hal%aligned_length).
  destruct (aligned_upper a b) as (n & Hn%aligned_transforms%Hmin & Hle).
  lia.
Qed.

Lemma edit_distance_length s t d :
  edit_distance s t d → length s - length t ≤ d ∧ length t - length s ≤ d.
Proof.
  intros [(m & Hm & Hal%aligned_length)%transforms_aligned _]. lia.
Qed.

(** ** The tiers of [getMatchScore] *)

Lemma prefix_substring (q t : jsstring) : q `prefix_of` t → substring_of q t.
Proof. intros [r ->]. by exists [], r. Qed.

(** X5.  The score tells the tier apart: it is 100 exactly for equal strings
    (up to case), 80 exactly for a proper prefix, 60 exactly for a substring
    that is not a prefix, and below 60 exactly when the query does not occur
    in the candidate at all. *)
Theorem getMatchScore_tiers (toLowerCase : jsstring → jsstring)
    (text query : jsstring) :
  let t := toLowerCase text in
  let q := toLowerCase query in
  ∃ z, getMatchScore toLowerCase text query = Normal z
       ∧ (z = 100%Z ↔ t = q)
       ∧ (z = 80%Z ↔ t ≠ q ∧ q `prefix_of` t)
       ∧ (z = 60%Z ↔ ¬ q `prefix_of` t ∧ substring_of q t)
       ∧ ((z < 60)%Z ↔ ¬ substring_of q t).
Proof.
  intros t q.
  destruct (decide (t = q)) as [Heq|Hne].
  { exists 100%Z. split; [by apply getMatchScore_exact|].
    assert (q `prefix_of` t) as Hpre by by rewrite Heq.
    pose proof (prefix_substring _ _ Hpre).
    repeat split; try done; try lia; tauto. }
  destruct (startsWith t q) eqn:Hpre.
  { exists 80%Z. split.
    { unfold getMatchScore. fold t q. by rewrite decide_False, Hpre. }
    apply startsWith_prefix in Hpre. pose proof (prefix_substring _ _ Hpre).
    repeat split; try done; try lia; tauto. }
  assert (¬ q `prefix_of` t) as Hnpre
    by (rewrite <-startsWith_prefix; congruence).
  destruct (includes t q) eqn:Hinc.
  { exists 60%Z. split.
    { unfold getMatchScore. fold t q. by rewrite decide_False, Hpre, Hinc. }
    apply includes_substring in Hinc.
    repeat split; try done; try lia; tauto. }
  assert (¬ substring_of q t) as Hnsub
    by (rewrite <-includes_substring; congruence).
  destruct (getMatchScore_fuzzy toLowerCase text query)
    as (d & _ & Hd & ->); [done..|].
  eexists. split; [done|].
  repeat case_decide; repeat split; try done; try lia; tauto.
Qed.

(** X6.  Typo tolerance does not bridge a difference in length: when the
    query does not occur in the candidate and the two lengths differ by more
    than the allowed number of errors, the score is 0. *)
Theorem length_gap_scores_0 (toLowerCase : jsstring → jsstring)
    (text query : jsstring) :
  let t := toLowerCase text in
  let q := toLowerCase query in
  ¬ substring_of q t →
  (if decide (length q ≤ 5) then 1 else 2)
  < (length t - length q) + (length q - length t) →
  getMatchScore toLowerCase text query = Normal 0%Z.
Proof.
  intros t q Hnsub Hgap.
  assert (includes t q = false) as Hinc
    by (apply not_true_is_false; by rewrite includes_substring).
  assert (startsWith t q = false) as Hpre.
  { apply not_true_is_false. intros H%startsWith_includes. congruence. }
  assert (t ≠ q) as Hne.
  { intros Heq. apply Hnsub. rewrite Heq. by apply prefix_substring. }
  destruct (getMatchScore_fuzzy toLowerCase text query)
    as (d & Hd%edit_distance_length & _ & ->); [done..|].
  fold t q in Hd |- *. f_equal.
  repeat case_decide; try done; lia.
Qed.

Lemma length_gap_scores_0_witness :
  getMatchScore asciiLower (str "Shortness of breath") (str "breth")
  = Normal 0%Z.
Proof.
  apply (length_gap_scores_0 asciiLower (str "Shortness of breath")
           (str "breth")).
  - rewrite <-includes_substring. by vm_compute.
  - vm_compute. lia.
Defined.

(** ** What the query engine shows *)

Section Shown.

Variable toLowerCase : jsstring → jsstring.
Variable synonyms : gmap jsstring (list jsstring).

Lemma ranked_elem_of query symptoms x :
  x ∈ ranked toLowerCase synonyms query symptoms
  ↔ x ∈ symptoms ∧ (0 < effectiveScore toLowerCase synonyms query x)%Z.
Proof.
  unfold ranked. rewrite sort_perm, list_elem_of_filter. tauto.
Qed.

Lemma ranked_submseteq query symptoms :
  ranked toLowerCase synonyms query symptoms ⊆+ symptoms.
Proof.
  unfold ranked. rewrite sort_perm.
  apply sublist_submseteq, sublist_filter.
Qed.

(** The two ways a category gets shown. *)
Lemma entry_result_Some searchQuery activeCategories entry shown :
  entry_result toLowerCase synonyms searchQuery activeCategories entry
  = Some shown →
  active activeCategories entry.1
  ∧ (shown = entry
     ∨ (trim searchQuery ≠ []
        ∧ toLowerCase entry.1 ≠ toLowerCase (trim searchQuery)
        ∧ shown
          = (entry.1,
             {| icon_of := entry.2.(icon_of);
                items := ranked toLowerCase synonyms (trim searchQuery)
                           entry.2.(items) |})
        ∧ ranked toLowerCase synonyms (trim searchQuery) entry.2.(items)
          ≠ [])).
Proof.
  unfold entry_result. intros H.
  repeat case_decide; simplify_eq; split; try done; try (by left).
  right. done.
Qed.

Lemma entry_result_name searchQuery activeCategories entry shown :
  entry_result toLowerCase synonyms searchQuery activeCategories entry
  = Some shown →
  shown.1 = entry.1.
Proof. intros (_ & [->|(_ & _ & -> & _)])%entry_result_Some; done. Qed.

(** An inactive category is dropped; otherwise the selection plays no part. *)
Lemma entry_result_active searchQuery activeCategories entry :
  entry_result toLowerCase synonyms searchQuery activeCategories entry
  = if decide (active activeCategories entry.1)
    then entry_result toLowerCase synonyms searchQuery {[ All ]} entry
    else None.
Proof.
  unfold entry_result. case_decide; [|done].
  rewrite (decide_True (P := active {[ All ]} _)); [done|].
  left. set_solver.
Qed.

End Shown.

Lemma omap_cons {A B : Type} (f : A → option B) (x : A) (l : list A) :
  omap f (x :: l)
  = match f x with Some y => y :: omap f l | None => omap f l end.
Proof. reflexivity. Qed.

Lemma matchScore_substring toLowerCase text query :
  substring_of (toLowerCase query) (toLowerCase text) →
  (60 ≤ matchScore toLowerCase text query)%Z.
Proof.
  intros Hsub%includes_substring. unfold matchScore, getMatchScore.
  case_decide; [lia|]. destruct (startsWith _ _); [lia|].
  rewrite Hsub. lia.
Qed.

(** X7.  The categories shown come in taxonomy order, none more often than
    the taxonomy lists it, and each of them is active. *)
Theorem shown_categories_in_order (toLowerCase : jsstring → jsstring)
    (categories : list (jsstring * category_data))
    (synonyms : gmap jsstring (list jsstring))
    (searchQuery : jsstring) (activeCategories : gset jsstring) :
  plain_taxonomy categories synonyms →
  ∃ shown,
    filterAndRank toLowerCase categories synonyms searchQuery activeCategories
    = Normal shown
    ∧ fst <$> shown `sublist_of` fst <$> categories
    ∧ Forall (λ e, active activeCategories e.1) shown.
Proof.
  intros Hplain. eexists. split; [by apply filterAndRank_spec|].
  clear Hplain. induction categories as [|e l [IH1 IH2]].
  { split; [done|constructor]. }
  rewrite omap_cons.
  destruct (entry_result _ _ _ _ e) as [e'|] eqn:He.
  - pose proof (entry_result_name _ _ _ _ _ _ He) as Hname.
    apply entry_result_Some in He as [Hact _].
    rewrite !fmap_cons, Hname. split; [by apply sublist_skip|].
    constructor; [by rewrite Hname|done].
  - rewrite fmap_cons. split; [by apply sublist_cons|done].
Qed.

Lemma shown_categories_in_order_witness :
  ∃ shown,
    filterAndRank asciiLower CATEGORIES SYNONYMS (str "pain")
      {[ str "Skin"; str "Pain"; str "Digestive" ]}
    = Normal shown
    ∧ fst <$> shown `sublist_of` fst <$> CATEGORIES
    ∧ Forall (λ e, active {[ str "Skin"; str "Pain"; str "Digestive" ]} e.1)
        shown.
Proof.
  apply (shown_categories_in_order asciiLower CATEGORIES SYNONYMS (str "pain")
           {[ str "Skin"; str "Pain"; str "Digestive" ]}).
  apply (bool_decide_unpack _). by vm_compute.
Defined.

(** X8.  Every category shown is one of the taxonomy, with its icon, and its
    symptoms are symptoms of that category, none more often than there; a
    category that has symptoms is never shown without any. *)
Theorem shown_symptoms_from_category (toLowerCase : jsstring → jsstring)
    (categories : list (jsstring * category_data))
    (synonyms : gmap jsstring (list jsstring))
    (searchQuery : jsstring) (activeCategories : gset jsstring) :
  plain_taxonomy categories synonyms →
  ∃ shown,
    filterAndRank toLowerCase categories synonyms searchQuery activeCategories
    = Normal shown
    ∧ ∀ e', e' ∈ shown →
        ∃ e, e ∈ categories
             ∧ e'.1 = e.1
             ∧ e'.2.(icon_of) = e.2.(icon_of)
             ∧ e'.2.(items) ⊆+ e.2.(items)
             ∧ (e.2.(items) ≠ [] → e'.2.(items) ≠ []).
Proof.
  intros Hplain. eexists. split; [by apply filterAndRank_spec|].
  intros e' (e & He & Hres)%list_elem_of_omap. exists e. split; [done|].
  apply entry_result_Some in Hres as (_ & [->|(_ & _ & -> & Hne)]); [done|].
  simpl. repeat split; [apply ranked_submseteq|done].
Qed.

Lemma shown_symptoms_from_category_witness :
  ∃ shown,
    filterAndRank asciiLower CATEGORIES SYNONYMS (str "ache") {[ All ]}
    = Normal shown
    ∧ ∀ e', e' ∈ shown →
        ∃ e, e ∈ CATEGORIES
             ∧ e'.1 = e.1
             ∧ e'.2.(icon_of) = e.2.(icon_of)
             ∧ e'.2.(items) ⊆+ e.2.(items)
             ∧ (e.2.(items) ≠ [] → e'.2.(items) ≠ []).
Proof.
  apply (shown_symptoms_from_category asciiLower CATEGORIES SYNONYMS
           (str "ache") {[ All ]}).
  apply (bool_decide_unpack _). by vm_compute.
Defined.

(** X9.  Filtering by category and searching commute: the result for a
    selection is the result for [All] restricted to the active categories. *)
Theorem category_filter_commutes (toLowerCase : jsstring → jsstring)
    (categories : list (jsstring * category_data))
    (synonyms : gmap jsstring (list jsstring))
    (searchQuery : jsstring) (activeCategories : gset jsstring) :
  plain_taxonomy categories synonyms →
  ∃ all,
    filterAndRank toLowerCase categories synonyms searchQuery {[ All ]}
    = Normal all
    ∧ filterAndRank toLowerCase categories synonyms searchQuery
        activeCategories
      = Normal (filter (λ e, active activeCategories e.1) all).
Proof.
  intros Hplain. eexists. split; [by apply filterAndRank_spec|].
  rewrite filterAndRank_spec by done. f_equal. clear Hplain.
  induction categories as [|e l IH]; [done|].
  rewrite !omap_cons, IH, entry_result_active.
  destruct (entry_result _ _ _ {[ All ]} e) as [e'|] eqn:He.
  - apply entry_result_name in He. rewrite filter_cons, He.
    by case_decide.
  - by case_decide.
Qed.

Lemma category_filter_commutes_witness :
  ∃ all,
    filterAndRank asciiLower CATEGORIES SYNONYMS (str "pain") {[ All ]}
    = Normal all
    ∧ filterAndRank asciiLower CATEGORIES SYNONYMS (str "pain")
        {[ str "Digestive" ]}
      = Normal (filter (λ e, active {[ str "Digestive" ]} e.1) all).
Proof.
  apply (category_filter_commutes asciiLower CATEGORIES SYNONYMS (str "pain")
           {[ str "Digestive" ]}).
  apply (bool_decide_unpack _). by vm_compute.
Defined.

(** X10.  A substring match is never missed: a symptom whose name, or one of
    whose registered synonyms, contains the trimmed query (up to case) is
    shown under every active category that lists it. *)
Theorem substring_match_is_shown (toLowerCase : jsstring → jsstring)
    (categories : list (jsstring * category_data))
    (synonyms : gmap jsstring (list jsstring))
    (searchQuery : jsstring) (activeCategories : gset jsstring)
    (category : jsstring) (data : category_data) (symptom : jsstring) :
  plain_taxonomy categories synonyms →
  (category, data) ∈ categories →
  active activeCategories category →
  symptom ∈ data.(items) →
  substring_of (toLowerCase (trim searchQuery)) (toLowerCase symptom)
  ∨ (∃ syn, syn ∈ registered synonyms symptom
            ∧ substring_of (toLowerCase (trim searchQuery))
                (toLowerCase syn)) →
  ∃ shown data',
    filterAndRank toLowerCase categories synonyms searchQuery activeCategories
    = Normal shown
    ∧ (category, data') ∈ shown
    ∧ symptom ∈ data'.(items).
Proof.
  intros Hplain Hin Hact Hsym Hmatch.
  assert (0 < effectiveScore toLowerCase synonyms (trim searchQuery) symptom)%Z
    as Heff.
  { destruct (effectiveScore_maximum toLowerCase synonyms (trim searchQuery)
                symptom) as [_ Hmax].
    destruct Hmatch as [Hsub|(syn & Hsyn & Hsub)];
      apply matchScore_substring in Hsub.
    - specialize (Hmax _ ltac:(by left)). lia.
    - assert (matchScore toLowerCase syn (trim searchQuery)
              ∈ candidate_scores toLowerCase synonyms (trim searchQuery)
                  symptom) as Hc.
      { right. apply list_elem_of_fmap. by exists syn. }
      specialize (Hmax _ Hc). lia. }
  assert (∃ data',
    entry_result toLowerCase synonyms searchQuery activeCategories
      (category, data) = Some (category, data')
    ∧ symptom ∈ data'.(items)) as (data' & Hres & Hshown).
  { unfold entry_result. simpl. rewrite decide_True by done.
    case_decide; [by exists data|]. case_decide; [by exists data|].
    assert (symptom ∈ ranked toLowerCase synonyms (trim searchQuery)
                        data.(items)) as Hr by by apply ranked_elem_of.
    rewrite decide_False by (intros Hnil; rewrite Hnil in Hr; by inversion Hr).
    by eexists. }
  exists (omap (entry_result toLowerCase synonyms searchQuery activeCategories)
            categories), data'.
  split; [by apply filterAndRank_spec|]. split; [|done].
  apply list_elem_of_omap. by exists (category, data).
Qed.

Lemma substring_match_is_shown_witness :
  let data :=
    {| icon_of := Activity;
       items := map str ["Nausea"; "Vomiting"; "Diarrhea"; "Abdominal pain";
                         "Bloating"; "Heartburn"; "Loss of appetite";
                         "Indigestion"; "Constipation"]%string |} in
  ∃ shown data',
    filterAndRank asciiLower CATEGORIES SYNONYMS (str " Tummy ") {[ All ]}
    = Normal shown
    ∧ (str "Digestive", data') ∈ shown
    ∧ str "Abdominal pain" ∈ data'.(items).
Proof.
  intros data.
  apply (substring_match_is_shown asciiLower CATEGORIES SYNONYMS
           (str " Tummy ") {[ All ]} (str "Digestive") data
           (str "Abdominal pain")).
  - apply (bool_decide_unpack _). by vm_compute.
  - apply (bool_decide_unpack _). by vm_compute.
  - apply (bool_decide_unpack _). by vm_compute.
  - apply (bool_decide_unpack _). by vm_compute.
  - right. exists (str "tummy ache"). split.
    + apply (bool_decide_unpack _). by vm_compute.
    + rewrite <-includes_substring. by vm_compute.
Defined.

Lemma entry_result_ranked toLowerCase synonyms searchQuery activeCategories
    entry shown :
  entry_result toLowerCase synonyms searchQuery activeCategories entry
  = Some shown →
  trim searchQuery ≠ [] →
  toLowerCase entry.1 ≠ toLowerCase (trim searchQuery) →
  shown = (entry.1,
           {| icon_of := entry.2.(icon_of);
              items := ranked toLowerCase synonyms (trim searchQuery)
                         entry.2.(items) |})
  ∧ ranked toLowerCase synonyms (trim searchQuery) entry.2.(items) ≠ [].
Proof.
  unfold entry_result. intros H Hq Hne.
  repeat case_decide; by simplify_eq.
Qed.

(** X11.  Nothing unrelated is shown: unless the query is empty or names the
    category, every symptom shown under a category scores above 0 against
    the query by its name or by one of its registered synonyms. *)
Theorem shown_symptom_matches (toLowerCase : jsstring → jsstring)
    (categories : list (jsstring * category_data))
    (synonyms : gmap jsstring (list jsstring))
    (searchQuery : jsstring) (activeCategories : gset jsstring) :
  plain_taxonomy categories synonyms →
  trim searchQuery ≠ [] →
  ∃ shown,
    filterAndRank toLowerCase categories synonyms searchQuery activeCategories
    = Normal shown
    ∧ ∀ category data' symptom,
        (category, data') ∈ shown →
        toLowerCase category ≠ toLowerCase (trim searchQuery) →
        symptom ∈ data'.(items) →
        (0 < matchScore toLowerCase symptom (trim searchQuery))%Z
        ∨ ∃ syn, syn ∈ registered synonyms symptom
                 ∧ (0 < matchScore toLowerCase syn (trim searchQuery))%Z.
Proof.
  intros Hplain Hq. eexists. split; [by apply filterAndRank_spec|].
  intros category data' symptom (e & He & Hres)%list_elem_of_omap Hne Hsym.
  pose proof (entry_result_name _ _ _ _ _ _ Hres) as Hname. simpl in Hname.
  apply entry_result_ranked in Hres as [Hshown _]; [|done|by rewrite <-Hname].
  injection Hshown as _ ->. simpl in Hsym.
  apply ranked_elem_of in Hsym as [_ Heff].
  destruct (effectiveScore_maximum toLowerCase synonyms (trim searchQuery)
              symptom) as [[Hc|Hc]%elem_of_cons _].
  - left. by rewrite <-Hc.
  - right. apply list_elem_of_fmap in Hc as (syn & Hc & Hsyn).
    exists syn. split; [done|]. by rewrite <-Hc.
Qed.

Lemma shown_symptom_matches_witness :
  ∃ shown,
    filterAndRank asciiLower CATEGORIES SYNONYMS (str "tired") {[ All ]}
    = Normal shown
    ∧ ∀ category data' symptom,
        (category, data') ∈ shown →
        asciiLower category ≠ asciiLower (trim (str "tired")) →
        symptom ∈ data'.(items) →
        (0 < matchScore asciiLower symptom (trim (str "tired")))%Z
        ∨ ∃ syn, syn ∈ registered SYNONYMS symptom
                 ∧ (0 < matchScore asciiLower syn (trim (str "tired")))%Z.
Proof.
  apply (shown_symptom_matches asciiLower CATEGORIES SYNONYMS (str "tired")
           {[ All ]}).
  - apply (bool_decide_unpack _). by vm_compute.
  - by vm_compute.
Defined.

(** X12.  The best match comes first: when the item-level pass shows a
    category, no symptom of the category has a higher effective score than
    the first one shown; when it drops the category, no symptom of it has a
    positive effective score. *)
Theorem best_match_first (toLowerCase : jsstring → jsstring)
    (synonyms : gmap jsstring (list jsstring))
    (searchQuery : jsstring) (activeCategories : gset jsstring)
    (category : jsstring) (data : category_data) :
  Forall (plain_lookup synonyms) data.(items) →
  active activeCategories category →
  trim searchQuery ≠ [] →
  toLowerCase category ≠ toLowerCase (trim searchQuery) →
  let effective := effectiveScore toLowerCase synonyms (trim searchQuery) in
  (category_entry toLowerCase synonyms searchQuery activeCategories
     (category, data) = Normal None
   ∧ ∀ x, x ∈ data.(items) → (effective x ≤ 0)%Z)
  ∨ (∃ first rest,
       category_entry toLowerCase synonyms searchQuery activeCategories
         (category, data)
       = Normal (Some (category,
                       {| icon_of := data.(icon_of);
                          items := first :: rest |}))
       ∧ ∀ x, x ∈ data.(items) → (effective x ≤ effective first)%Z).
Proof.
  intros Hplain Hact Hq Hne effective.
  rewrite category_entry_spec by done. unfold entry_result. simpl.
  rewrite decide_True, decide_False, decide_False by done.
  pose proof (ranked_sorted toLowerCase synonyms (trim searchQuery)
                data.(items)) as Hsorted.
  pose proof (ranked_elem_of toLowerCase synonyms (trim searchQuery)
                data.(items)) as Hel.
  simpl in Hsorted. fold effective in Hsorted, Hel.
  destruct (ranked _ _ _ _) as [|first rest].
  - left. split; [done|]. intros x Hx.
    destruct (decide (0 < effective x)%Z) as [Hpos|]; [|lia].
    assert (x ∈ []) as Hnil by (apply Hel; done). by inversion Hnil.
  - right. exists first, rest. split; [done|]. intros x Hx.
    assert (0 < effective first)%Z by (apply Hel; by left).
    destruct (decide (0 < effective x)%Z) as [Hpos|]; [|lia].
    assert (x ∈ first :: rest) as [->|Hrest]%elem_of_cons
      by (apply Hel; done); [lia|].
    apply StronglySorted_inv in Hsorted as [_ Hall].
    rewrite Forall_forall in Hall. by apply Hall.
Qed.

Lemma best_match_first_witness :
  let data :=
    {| icon_of := Zap;
       items := map str ["Back pain"; "Joint pain"; "Muscle ache"; "Neck pain";
                         "Sharp pain"; "Dull ache"]%string |} in
  let effective := effectiveScore asciiLower SYNONYMS (trim (str "ache")) in
  (category_entry asciiLower SYNONYMS (str "ache") {[ All ]}
     (str "Pain", data) = Normal None
   ∧ ∀ x, x ∈ data.(items) → (effective x ≤ 0)%Z)
  ∨ (∃ first rest,
       category_entry asciiLower SYNONYMS (str "ache") {[ All ]}
         (str "Pain", data)
       = Normal (Some (str "Pain",
                       {| icon_of := data.(icon_of);
                          items := first :: rest |}))
       ∧ ∀ x, x ∈ data.(items) → (effective x ≤ effective first)%Z).
Proof.
  intros data.
  apply (best_match_first asciiLower SYNONYMS (str "ache") {[ All ]}
           (str "Pain") data).
  - apply (bool_decide_unpack _). by vm_compute.
  - apply (bool_decide_unpack _). by vm_compute.
  - by vm_compute.
  - by vm_compute.
Defined.

(** ** The query is read up to case and surrounding space *)

Lemma getMatchScore_query toLowerCase text q1 q2 :
  toLowerCase q1 = toLowerCase q2 →
  getMatchScore toLowerCase text q1 = getMatchScore toLowerCase text q2.
Proof. unfold getMatchScore. by intros ->. Qed.

Lemma synonym_loop_query toLowerCase q1 q2 itemSynonyms maxScore :
  toLowerCase q1 = toLowerCase q2 →
  synonym_loop toLowerCase q1 itemSynonyms maxScore
  = synonym_loop toLowerCase q2 itemSynonyms maxScore.
Proof.
  intros Hq. revert maxScore.
  induction itemSynonyms as [|syn rest IH]; intros m; simpl; [done|].
  rewrite (getMatchScore_query _ syn q1 q2) by done.
  destruct (getMatchScore toLowerCase syn q2); simpl; [apply IH|done].
Qed.

Lemma score_item_query toLowerCase synonyms q1 q2 symptom :
  toLowerCase q1 = toLowerCase q2 →
  score_item toLowerCase synonyms q1 symptom
  = score_item toLowerCase synonyms q2 symptom.
Proof.
  intros Hq. unfold score_item.
  rewrite (getMatchScore_query _ symptom q1 q2) by done.
  destruct (getMatchScore toLowerCase symptom q2); simpl; [|done].
  destruct (get_property synonyms symptom); simpl; try done.
  by rewrite (synonym_loop_query _ q1 q2).
Qed.

Lemma category_entry_query toLowerCase synonyms q1 q2 activeCategories entry :
  (trim q1 = [] ↔ trim q2 = []) →
  toLowerCase (trim q1) = toLowerCase (trim q2) →
  category_entry toLowerCase synonyms q1 activeCategories entry
  = category_entry toLowerCase synonyms q2 activeCategories entry.
Proof.
  intros Hnil Hq. destruct entry as [category data]. unfold category_entry.
  destruct (negb _ && negb _); [done|].
  destruct (decide (trim q1 = [])) as [H1|H1].
  { by rewrite (decide_True (P := trim q2 = [])) by tauto. }
  rewrite (decide_False (P := trim q2 = [])) by tauto.
  rewrite (getMatchScore_query _ category (trim q1) (trim q2)) by done.
  rewrite (mapM_ext (score_item toLowerCase synonyms (trim q1))
             (score_item toLowerCase synonyms (trim q2))); [done|].
  apply Forall_forall. intros. by apply score_item_query.
Qed.

Lemma trimStart_head s c r : trimStart s = c :: r → isWhiteSpace c = false.
Proof.
  induction s as [|d s IH]; simpl; [done|].
  destruct (isWhiteSpace d) eqn:Hd; [done|]. by intros [= <- _].
Qed.

Lemma trimStart_fixed s :
  (∀ c r, s = c :: r → isWhiteSpace c = false) → trimStart s = s.
Proof.
  destruct s as [|c r]; [done|]. intros H. simpl.
  by rewrite (H c r).
Qed.

Lemma trimStart_split s :
  ∃ w, s = w ++ trimStart s ∧ Forall (λ c, isWhiteSpace c = true) w.
Proof.
  induction s as [|c s (w & Hs & Hw)]; simpl; [by exists []|].
  destruct (isWhiteSpace c) eqn:Hc.
  - exists (c :: w). split; [simpl; by f_equal|by constructor].
  - by exists [].
Qed.

Lemma trim_idempotent s : trim (trim s) = trim s.
Proof.
  unfold trim.
  set (u := trimStart s). set (r := trimStart (reverse u)).
  assert (trimStart (reverse r) = reverse r) as ->.
  { apply trimStart_fixed. intros c v Hv.
    destruct (trimStart_split (reverse u)) as (w & Hu & _). fold r in Hu.
    apply (f_equal reverse) in Hu.
    rewrite reverse_involutive, reverse_app, Hv in Hu.
    by apply (trimStart_head s c (v ++ reverse w)). }
  rewrite reverse_involutive. f_equal.
  apply trimStart_fixed. intros c v Hv.
  by apply (trimStart_head (reverse u) c v).
Qed.

(** X13.  Two queries that are equal after trimming and lower-casing (and
    are both empty or both not) give the same result. *)
Theorem query_read_up_to_case (toLowerCase : jsstring → jsstring)
    (categories : list (jsstring * category_data))
    (synonyms : gmap jsstring (list jsstring))
    (q1 q2 : jsstring) (activeCategories : gset jsstring) :
  (trim q1 = [] ↔ trim q2 = []) →
  toLowerCase (trim q1) = toLowerCase (trim q2) →
  filterAndRank toLowerCase categories synonyms q1 activeCategories
  = filterAndRank toLowerCase categories synonyms q2 activeCategories.
Proof.
  intros Hnil Hq. unfold filterAndRank.
  rewrite (mapM_ext (category_entry toLowerCase synonyms q1 activeCategories)
             (category_entry toLowerCase synonyms q2 activeCategories));
    [done|].
  apply Forall_forall. intros. by apply category_entry_query.
Qed.

Lemma query_read_up_to_case_witness :
  filterAndRank asciiLower CATEGORIES SYNONYMS (str "FEVER ") {[ All ]}
  = filterAndRank asciiLower CATEGORIES SYNONYMS (str " fever") {[ All ]}.
Proof.
  apply (query_read_up_to_case asciiLower CATEGORIES SYNONYMS (str "FEVER ")
           (str " fever") {[ All ]}).
  - by vm_compute.
  - by vm_compute.
Defined.

(** X14.  White space around the query is ignored. *)
Theorem surrounding_space_ignored (toLowerCase : jsstring → jsstring)
    (categories : list (jsstring * category_data))
    (synonyms : gmap jsstring (list jsstring))
    (searchQuery : jsstring) (activeCategories : gset jsstring) :
  filterAndRank toLowerCase categories synonyms searchQuery activeCategories
  = filterAndRank toLowerCase categories synonyms (trim searchQuery)
      activeCategories.
Proof.
  unfold filterAndRank.
  rewrite (mapM_ext
             (category_entry toLowerCase synonyms searchQuery
                activeCategories)
             (category_entry toLowerCase synonyms (trim searchQuery)
                activeCategories)); [done|].
  apply Forall_forall. intros e _.
  apply category_entry_query; by rewrite trim_idempotent.
Qed.

(** ** The selector's state *)

Lemma filter_ne_absent {A : Type} `{EqDecision A} (x : A) (l : list A) :
  x ∉ l → filter (λ y, y ≠ x) l = l.
Proof.
  induction l as [|y l IH]; [done|]. intros Hx.
  apply not_elem_of_cons in Hx as [Hne Hx].
  rewrite filter_cons, decide_True by done. by rewrite IH.
Qed.

Lemma filter_ne_elem_of {A : Type} `{EqDecision A} (x y : A) (l : list A) :
  y ∈ filter (λ z, z ≠ x) l ↔ y ≠ x ∧ y ∈ l.
Proof. apply (list_elem_of_filter (λ z, z ≠ x)). Qed.

(** X15.  On the selections that toggling can reach, toggling a category
    twice changes nothing. *)
Theorem toggleCategory_twice (cat : jsstring) (s : gset jsstring) :
  Selector.well_formed s →
  cat ≠ All →
  Selector.toggleCategory cat (Selector.toggleCategory cat s) = s.
Proof.
  intros [->|[Hne Hall]] Hcat.
  - rewrite SelectorFacts.toggleCategory_from_All by done.
    by apply SelectorFacts.toggleCategory_last.
  - unfold Selector.toggleCategory at 2.
    rewrite decide_False, (decide_False (P := All ∈ s)) by done.
    destruct (decide (cat ∈ s)) as [Hin|Hout].
    + destruct (decide (size (s ∖ {[ cat ]}) = 0)) as [Hsize|Hsize].
      * rewrite SelectorFacts.toggleCategory_from_All by done.
        apply size_empty_iff in Hsize. apply set_eq. intros x.
        rewrite elem_of_singleton. split; [by intros ->|]. intros Hx.
        destruct (decide (x = cat)) as [|Hxc]; [done|]. set_solver.
      * apply size_non_empty_iff in Hsize.
        unfold Selector.toggleCategory.
        rewrite decide_False by done.
        rewrite (decide_False (P := All ∈ _)) by set_solver.
        rewrite (decide_False (P := cat ∈ _)) by set_solver.
        rewrite decide_False by (apply size_non_empty_iff; set_solver).
        apply set_eq. intros x.
        destruct (decide (x = cat)) as [->|Hxc]; set_solver.
    + assert (size (s ∪ {[ cat ]}) ≠ 0) as Hsize
        by (apply size_non_empty_iff; set_solver).
      rewrite (decide_False (P := size _ = 0)) by done.
      unfold Selector.toggleCategory.
      rewrite decide_False by done.
      rewrite (decide_False (P := All ∈ _)) by set_solver.
      rewrite (decide_True (P := cat ∈ _)) by set_solver.
      assert ((s ∪ {[ cat ]}) ∖ {[ cat ]} = s) as -> by set_solver.
      rewrite decide_False; [done|].
      apply size_non_empty_iff. intros Hs. by apply Hne, leibniz_equiv.
Qed.

Lemma toggleCategory_twice_witness :
  Selector.toggleCategory (str "Pain")
    (Selector.toggleCategory (str "Pain") {[ str "Skin"; str "Pain" ]})
  = {[ str "Skin"; str "Pain" ]}.
Proof.
  apply (toggleCategory_twice (str "Pain") {[ str "Skin"; str "Pain" ]}).
  - apply (bool_decide_unpack _). by vm_compute.
  - by vm_compute.
Defined.

(** X16.  [All] never stands beside a category: whenever it is in the
    selection, it is the whole selection. *)
Theorem All_is_exclusive (cats : list jsstring) :
  All ∈ Selector.toggles cats → Selector.toggles cats = {[ All ]}.
Proof.
  intros Hall.
  by destruct (SelectorFacts.toggles_well_formed cats) as [?|[_ ?]].
Qed.

Lemma All_is_exclusive_witness :
  Selector.toggles [str "Pain"; str "Skin"; All] = {[ All ]}.
Proof.
  apply (All_is_exclusive [str "Pain"; str "Skin"; All]).
  apply (bool_decide_unpack _). by vm_compute.
Defined.




(** X18.  Toggling a symptom flips its membership, leaves every other
    symptom as it was, and touches neither the query nor the categories. *)
Theorem toggleSymptom_flips (symptom : jsstring) (st : Selector.state) :
  let st' := Selector.toggleSymptom symptom st in
  (symptom ∈ st'.(Selector.selected) ↔ symptom ∉ st.(Selector.selected))
  ∧ (∀ x, x ≠ symptom →
       (x ∈ st'.(Selector.selected) ↔ x ∈ st.(Selector.selected)))
  ∧ st'.(Selector.searchQuery) = st.(Selector.searchQuery)
  ∧ st'.(Selector.activeCategories) = st.(Selector.activeCategories).
Proof.
  unfold Selector.toggleSymptom, set_add, set_delete, set_has. simpl.
  case_bool_decide as Hin.
  - repeat split; try done.
    + by intros [? _]%filter_ne_elem_of.
    + by intros [_ ?]%filter_ne_elem_of.
    + intros. by apply filter_ne_elem_of.
  - repeat split; try done.
    + intros _. apply elem_of_app. right. by left.
    + intros [?|Hx%list_elem_of_singleton]%elem_of_app; done.
    + intros. apply elem_of_app. by left.
Qed.

Lemma toggleSymptom_flips_witness :
  let st :=
    {| Selector.selected := [str "Fever"; str "Cough"];
       Selector.searchQuery := str "co";
       Selector.activeCategories := {[ All ]} |} in
  str "Cough" ∈ (Selector.toggleSymptom (str "Fever") st).(Selector.selected)
  ↔ str "Cough" ∈ st.(Selector.selected).
Proof.
  intros st.
  apply (proj1 (proj2 (toggleSymptom_flips (str "Fever") st)) (str "Cough")).
  by vm_compute.
Defined.

(** X19.  Toggling a symptom twice restores the selection, except that a
    symptom that was selected ends up last in the order of selection. *)
Theorem toggleSymptom_twice (symptom : jsstring) (st : Selector.state) :
  (Selector.toggleSymptom symptom
     (Selector.toggleSymptom symptom st)).(Selector.selected)
  = if decide (symptom ∈ st.(Selector.selected))
    then filter (λ y, y ≠ symptom) st.(Selector.selected) ++ [symptom]
    else st.(Selector.selected).
Proof.
  unfold Selector.toggleSymptom, set_add, set_delete, set_has. simpl.
  case_decide as Hin.
  - rewrite (bool_decide_eq_true_2 _ Hin).
    assert (symptom ∉ filter (λ y, y ≠ symptom) (Selector.selected st))
      as Hout by (by intros [? _]%filter_ne_elem_of).
    by rewrite !(bool_decide_eq_false_2 _ Hout).
  - rewrite !(bool_decide_eq_false_2 _ Hin).
    rewrite bool_decide_eq_true_2 by (apply elem_of_app; right; by left).
    rewrite filter_app, filter_ne_absent by done.
    rewrite filter_cons, decide_False by (by intros ?).
    by rewrite filter_nil, app_nil_r.
Qed.

(** ** Handing the selection to the host *)

Lemma substring_of_suffix (x j r : jsstring) :
  substring_of x j → j `suffix_of` r → substring_of x r.
Proof.
  intros (l & k & ->) [p ->]. exists (p ++ l), k. by rewrite <-app_assoc.
Qed.

Lemma join_substring (sep x : jsstring) (l : list jsstring) :
  x ∈ l → substring_of x (join sep l).
Proof.
  induction l as [|y l IH]; [by intros ?%elem_of_nil|].
  intros [->|Hx]%elem_of_cons.
  - destruct l as [|z l]; simpl.
    + exists [], []. by rewrite app_nil_r.
    + by exists [], (sep ++ join sep (z :: l)).
  - destruct l as [|z l]; [by apply elem_of_nil in Hx|].
    destruct (IH Hx) as (p & k & Hj). change (join sep (y :: z :: l))
      with (y ++ sep ++ join sep (z :: l)).
    rewrite Hj. exists (y ++ sep ++ p), k. by rewrite <-!app_assoc.
Qed.

(** X20.  Confirming never loses text: the new symptoms text starts with
    the old one (trimmed), ends with the selected symptoms joined by commas,
    and so contains each selected symptom; on a blank text it is just the
    joined symptoms. *)
Theorem handleSymptomsAdded_keeps_text (selectedSymptoms : list jsstring)
    (prev : jsstring) :
  let text := Selector.handleSymptomsAdded selectedSymptoms prev in
  trim prev `prefix_of` text
  ∧ join (str ", ") selectedSymptoms `suffix_of` text
  ∧ (∀ x, x ∈ selectedSymptoms → substring_of x text)
  ∧ (trim prev = [] ↔ text = join (str ", ") selectedSymptoms).
Proof.
  intros text.
  assert (join (str ", ") selectedSymptoms `suffix_of` text) as Hsuf.
  { unfold text, Selector.handleSymptomsAdded. case_decide; [done|].
    rewrite app_assoc. by apply suffix_app_r. }
  split; [|split; [done|split]].
  - unfold text, Selector.handleSymptomsAdded. case_decide as Hq.
    + rewrite Hq. apply prefix_nil.
    + by apply prefix_app_r.
  - intros x Hx. eapply substring_of_suffix; [|done].
    by apply join_substring.
  - unfold text, Selector.handleSymptomsAdded. case_decide as Hq; [done|].
    split; [done|]. intros Heq. exfalso.
    apply (f_equal length) in Heq. rewrite !length_app in Heq.
    assert (0 < length (if bool_decide
                             (last (trim prev) = Some 44%N
                              ∨ last (trim prev) = Some 46%N)
                        then str " " else str ", "))
      by (case_bool_decide; vm_compute; lia).
    lia.
Qed.

Lemma handleSymptomsAdded_keeps_text_witness :
  substring_of (str "Cough")
    (Selector.handleSymptomsAdded [str "Fever"; str "Cough"]
       (str "I feel sick. ")).
Proof.
  apply (proj1 (proj2 (proj2
           (handleSymptomsAdded_keeps_text [str "Fever"; str "Cough"]
              (str "I feel sick. ")))) (str "Cough")).
  apply (bool_decide_unpack _). by vm_compute.
Defined.

(** ** Expanding and collapsing next steps *)

(** X21.  Toggling a step flips whether it is expanded, leaves the other
    steps, and their order, as they were, and never lists a step twice. *)
Theorem toggleStep_flips (index : nat) (prev : list nat) :
  (index ∈ toggleStep index prev ↔ index ∉ prev)
  ∧ filter (λ i, i ≠ index) (toggleStep index prev)
    = filter (λ i, i ≠ index) prev
  ∧ (NoDup prev → NoDup (toggleStep index prev)).
Proof.
  unfold toggleStep. case_bool_decide as Hin; split; [|split| |split].
  - split; [by intros [? _]%filter_ne_elem_of|done].
  - rewrite list_filter_filter. apply list_filter_iff. tauto.
  - apply NoDup_filter.
  - split; [done|]. intros _. apply elem_of_app. right. by left.
  - rewrite filter_app, (filter_cons _ index), decide_False by (by intros ?).
    by rewrite filter_nil, app_nil_r.
  - intros Hnd. apply NoDup_app. split; [done|].
    split; [|apply NoDup_singleton].
    intros x Hx ->%list_elem_of_singleton. done.
Qed.

Lemma toggleStep_flips_witness : NoDup (toggleStep 2 [0; 2; 1]).
Proof.
  apply (proj2 (proj2 (toggleStep_flips 2 [0; 2; 1]))).
  apply (bool_decide_unpack _). by vm_compute.
Defined.

(** ** Grouping the risk factors *)

Section FirstOccurrences.

Context {A : Type} `{EqDecision A}.

Lemma first_occurrences_elem_of (x : A) (l : list A) :
  x ∈ first_occurrences l ↔ x ∈ l.
Proof.
  induction l as [|y l IH]; simpl; [done|].
  rewrite !elem_of_cons, filter_ne_elem_of, IH.
  destruct (decide (x = y)); tauto.
Qed.

Lemma first_occurrences_NoDup (l : list A) : NoDup (first_occurrences l).
Proof.
  induction l as [|y l IH]; simpl; constructor.
  - by intros [? _]%filter_ne_elem_of.
  - by apply NoDup_filter.
Qed.

Lemma first_occurrences_snoc (l : list A) (x : A) :
  first_occurrences (l ++ [x])
  = if decide (x ∈ l) then first_occurrences l else first_occurrences l ++ [x].
Proof.
  induction l as [|y l IH]; simpl; [done|]. rewrite IH.
  destruct (decide (x = y)) as [->|Hne].
  - rewrite (decide_True (P := y ∈ y :: l)) by by left.
    case_decide; [done|].
    rewrite filter_app, filter_cons, decide_False by (by intros ?).
    by rewrite filter_nil, app_nil_r.
  - case_decide as Hin.
    + by rewrite decide_True by by right.
    + rewrite decide_False by (by intros [?|?]%elem_of_cons).
      rewrite filter_app, filter_cons, decide_True by done.
      by rewrite filter_nil.
Qed.

End FirstOccurrences.

Lemma forEach_app {A St : Type} (f : A → St → completion St) (l k : list A)
    (s : St) :
  forEach f (l ++ k) s = forEach f l s ≫= forEach f k.
Proof.
  revert s. induction l as [|x l IH]; intros s; simpl; [done|].
  destruct (f x s) as [s'|]; simpl; [apply IH|done].
Qed.

Lemma forEach_singleton {A St : Type} (f : A → St → completion St) (x : A)
    (s : St) :
  forEach f [x] s = f x s.
Proof. simpl. by destruct (f x s). Qed.

Lemma own_property_fmap (g : jsstring → list RiskFactors.RiskFactor)
    (ks : list jsstring) (k : jsstring) :
  RiskFactors.own_property ((λ k', (k', g k')) <$> ks) k
  = if decide (k ∈ ks) then Some (g k) else None.
Proof.
  induction ks as [|k0 ks IH]; csimpl; [done|].
  destruct (decide (k0 = k)) as [->|Hne].
  - by rewrite decide_True by by left.
  - rewrite IH. case_decide as Hin.
    + by rewrite decide_True by by right.
    + by rewrite decide_False by (by intros [?|?]%elem_of_cons).
Qed.

Lemma push_fmap (g : jsstring → list RiskFactors.RiskFactor)
    (ks : list jsstring) (k : jsstring) (item : RiskFactors.RiskFactor) :
  NoDup ks →
  RiskFactors.push k item ((λ k', (k', g k')) <$> ks)
  = (λ k', (k', if decide (k' = k) then g k' ++ [item] else g k')) <$> ks.
Proof.
  induction 1 as [|k0 ks Hk0 Hnd IH]; csimpl; [done|].
  destruct (decide (k0 = k)) as [->|Hne].
  - f_equal. apply list_fmap_ext. intros _ k' Hk'%list_elem_of_lookup_2.
    by rewrite decide_False by (by intros ->).
  - by rewrite IH.
Qed.

Lemma named_categories_elem_of k riskFactors :
  k ∈ named_categories riskFactors
  ↔ k ≠ [] ∧ k ∈ RiskFactors.category <$> riskFactors.
Proof.
  unfold named_categories.
  by rewrite first_occurrences_elem_of, (list_elem_of_filter (λ k, k ≠ [])).
Qed.

Lemma named_categories_snoc p x :
  named_categories (p ++ [x])
  = if decide (x.(RiskFactors.category) = []) then named_categories p
    else if decide (x.(RiskFactors.category) ∈ named_categories p)
         then named_categories p
         else named_categories p ++ [x.(RiskFactors.category)].
Proof.
  unfold named_categories at 1.
  rewrite fmap_app, filter_app. simpl. rewrite filter_cons, filter_nil.
  destruct (decide (RiskFactors.category x = [])) as [Hk|Hk].
  - by rewrite decide_False, app_nil_r by tauto.
  - rewrite decide_True by done. rewrite first_occurrences_snoc.
    fold (named_categories p).
    case_decide as Hin; case_decide as Hin'; try done.
    + exfalso. apply Hin'. unfold named_categories.
      by apply first_occurrences_elem_of.
    + exfalso. apply Hin. unfold named_categories in Hin'.
      by rewrite first_occurrences_elem_of in Hin'.
Qed.

Lemma in_category_snoc k p x :
  in_category k (p ++ [x])
  = if decide (x.(RiskFactors.category) = k) then in_category k p ++ [x]
    else in_category k p.
Proof.
  unfold in_category. rewrite filter_app, filter_cons, filter_nil.
  case_decide; [done|by rewrite app_nil_r].
Qed.

Lemma in_category_absent k p :
  k ∉ RiskFactors.category <$> p → in_category k p = [].
Proof.
  intros Hk. unfold in_category.
  induction p as [|i p IH]; [done|].
  rewrite fmap_cons in Hk. apply not_elem_of_cons in Hk as [Hne Hk].
  rewrite filter_cons, decide_False by done. by apply IH.
Qed.

(** One step of the loop, on the groups built from the risk factors seen so
    far. *)
Lemma group_item_grouped p x :
  ¬ shadowed x →
  RiskFactors.group_item x (grouped p, in_category [] p)
  = Normal (grouped (p ++ [x]), in_category [] (p ++ [x])).
Proof.
  intros Hx. unfold RiskFactors.group_item, grouped.
  rewrite named_categories_snoc, (in_category_snoc [] p x).
  destruct (decide (RiskFactors.category x = [])) as [Hk|Hk].
  - rewrite decide_True by done. do 2 f_equal. apply list_fmap_ext.
    intros _ k [Hne _]%list_elem_of_lookup_2%named_categories_elem_of.
    rewrite in_category_snoc. by rewrite decide_False by congruence.
  - rewrite (decide_False (P := RiskFactors.category x = [])) by done.
    rewrite own_property_fmap.
    destruct (decide (RiskFactors.category x ∈ named_categories p))
      as [Hin|Hin].
    + rewrite push_fmap by apply first_occurrences_NoDup.
      do 2 f_equal. apply list_fmap_ext. intros _ k _.
      rewrite in_category_snoc.
      case_decide; case_decide; congruence.
    + rewrite bool_decide_eq_false_2 by done.
      rewrite fmap_app. simpl. do 2 f_equal. f_equal.
      * apply list_fmap_ext. intros _ k Hk'%list_elem_of_lookup_2.
        rewrite in_category_snoc. by rewrite decide_False by congruence.
      * rewrite in_category_snoc, decide_True by done.
        rewrite in_category_absent; [done|].
        intros Hcat. apply Hin. by apply named_categories_elem_of.
Qed.

Lemma group_item_throws p x uncategorized :
  Forall (λ i, ¬ shadowed i) p →
  shadowed x →
  RiskFactors.group_item x (grouped p, uncategorized) = Throw.
Proof.
  intros Hp Hx. unfold RiskFactors.group_item, grouped.
  rewrite decide_False.
  2:{ intros Hk. unfold shadowed in Hx. rewrite Hk in Hx. revert Hx.
      apply (bool_decide_eq_false_1 _). by vm_compute. }
  rewrite own_property_fmap, decide_False.
  - by rewrite bool_decide_eq_true_2.
  - intros [_ (i & Hi & Hin)%list_elem_of_fmap]%named_categories_elem_of.
    rewrite Forall_forall in Hp. apply (Hp i Hin). unfold shadowed.
    by rewrite <-Hi.
Qed.

(** The whole loop. *)
Lemma forEach_group_item riskFactors :
  forEach RiskFactors.group_item riskFactors ([], [])
  = if decide (Exists shadowed riskFactors) then Throw
    else Normal (grouped riskFactors, in_category [] riskFactors).
Proof.
  induction riskFactors as [|x p IH] using rev_ind.
  { by rewrite decide_False by (by intros ?%Exists_nil). }
  rewrite forEach_app, IH. case_decide as Hp.
  - by rewrite decide_True by (apply Exists_app; by left).
  - rewrite bind_Normal, forEach_singleton.
    apply not_Exists_Forall in Hp; [|apply _].
    destruct (decide (shadowed x)) as [Hx|Hx].
    + rewrite (group_item_throws p x) by done.
      rewrite decide_True; [done|].
      apply Exists_app. right. by constructor.
    + rewrite group_item_grouped by done.
      rewrite decide_False; [done|].
      intros [He|He]%Exists_app.
      * by apply Forall_not_Exists in Hp.
      * by apply Exists_inv in He as [?|?%Exists_nil].
Qed.

Lemma sort_insert_Permutation {A : Type} (compareFn : A → A → Z) (x : A)
    (l : list A) :
  sort_insert compareFn x l ≡ₚ x :: l.
Proof.
  induction l as [|y l IH]; simpl; [done|].
  case_decide; [done|]. rewrite IH. apply Permutation_swap.
Qed.

Lemma sort_Permutation {A : Type} (compareFn : A → A → Z) (l : list A) :
  sort compareFn l ≡ₚ l.
Proof.
  induction l as [|x l IH]; [done|]. unfold sort. simpl.
  rewrite sort_insert_Permutation. by constructor.
Qed.

Lemma entries_Permutation groups : RiskFactors.entries groups ≡ₚ groups.
Proof.
  unfold RiskFactors.entries. rewrite sort_Permutation.
  apply (filter_app_complement (λ e, is_Some (RiskFactors.array_index e.1))).
Qed.

Lemma entries_no_index groups :
  Forall (λ e, RiskFactors.array_index e.1 = None) groups →
  RiskFactors.entries groups = groups.
Proof.
  intros Hg. unfold RiskFactors.entries, RiskFactors.object.
  match goal with
  | |- sort _ ?a ++ ?b = _ => assert (a = [] ∧ b = groups) as [-> ->]
  end; [|done].
  induction Hg as [|e g He _ [IH1 IH2]]; [done|].
  rewrite !filter_cons, IH1, IH2.
  rewrite decide_False by (rewrite He; by intros [? ?]).
  by rewrite decide_True by (rewrite He; by intros [? ?]).
Qed.

Lemma filter_ext_in {A : Type} (P Q : A → Prop) `{!∀ x, Decision (P x)}
    `{!∀ x, Decision (Q x)} (l : list A) :
  (∀ x, x ∈ l → (P x ↔ Q x)) → filter P l = filter Q l.
Proof.
  induction l as [|x l IH]; intros Hpq; [done|].
  rewrite !filter_cons, IH by (intros y Hy; apply Hpq; by right).
  specialize (Hpq x ltac:(by left)).
  destruct (decide (P x)), (decide (Q x)); tauto.
Qed.

Lemma in_category_split k ks l :
  k ∉ ks →
  in_category k l ++ filter (λ i, i.(RiskFactors.category) ∈ ks) l
  ≡ₚ filter (λ i, i.(RiskFactors.category) ∈ k :: ks) l.
Proof.
  intros Hk. unfold in_category.
  induction l as [|i l IH]; [done|]. rewrite !filter_cons.
  destruct (decide (RiskFactors.category i = k)) as [Hi|Hi].
  - rewrite (decide_False (P := RiskFactors.category i ∈ ks)) by congruence.
    rewrite decide_True by (rewrite Hi; by left).
    simpl. by constructor.
  - destruct (decide (RiskFactors.category i ∈ ks)) as [Hin|Hin].
    + rewrite decide_True by by right.
      rewrite <-Permutation_middle. by constructor.
    + by rewrite decide_False by (by intros [?|?]%elem_of_cons).
Qed.

Lemma join_in_category ks l :
  NoDup ks →
  mjoin ((λ k, in_category k l) <$> ks)
  ≡ₚ filter (λ i, i.(RiskFactors.category) ∈ ks) l.
Proof.
  induction 1 as [|k ks Hk _ IH]; csimpl.
  - induction l as [|i l IHl]; [done|].
    by rewrite filter_cons, decide_False by (by intros ?%elem_of_nil).
  - rewrite IH. by apply in_category_split.
Qed.

(** The risk factors under the headings are those that have a category. *)
Lemma join_grouped riskFactors :
  mjoin (snd <$> grouped riskFactors)
  ≡ₚ filter (λ i, i.(RiskFactors.category) ≠ []) riskFactors.
Proof.
  unfold grouped. rewrite <-list_fmap_compose.
  rewrite (list_fmap_ext _ (λ k, in_category k riskFactors)) by done.
  rewrite join_in_category by apply first_occurrences_NoDup.
  erewrite filter_ext_in; [done|]. intros i Hi. simpl.
  rewrite named_categories_elem_of. split; [tauto|]. intros Hne.
  split; [done|]. apply list_elem_of_fmap. by exists i.
Qed.

Lemma named_categories_nil riskFactors :
  named_categories riskFactors = []
  ↔ Forall (λ i, i.(RiskFactors.category) = []) riskFactors.
Proof.
  rewrite Forall_forall. split.
  - intros Hnil i Hi.
    destruct (decide (RiskFactors.category i = [])) as [|Hne]; [done|].
    assert (RiskFactors.category i ∈ named_categories riskFactors) as Hin.
    { apply named_categories_elem_of. split; [done|].
      apply list_elem_of_fmap. by exists i. }
    rewrite Hnil in Hin. by apply elem_of_nil in Hin.
  - intros Hall.
    destruct (named_categories riskFactors) as [|k ks] eqn:Hks; [done|].
    assert (k ∈ named_categories riskFactors) as Hin
      by (rewrite Hks; by left).
    apply named_categories_elem_of in Hin
      as [Hne (i & -> & Hi)%list_elem_of_fmap].
    by specialize (Hall i Hi).
Qed.

Lemma in_category_nil k riskFactors :
  in_category k riskFactors = []
  ↔ Forall (λ i, i.(RiskFactors.category) ≠ k) riskFactors.
Proof.
  unfold in_category. rewrite Forall_forall. split.
  - intros Hnil i Hi Hk.
    assert (i ∈ filter (λ i, RiskFactors.category i = k) riskFactors) as Hin
      by by apply (list_elem_of_filter (λ i, RiskFactors.category i = k)).
    rewrite Hnil in Hin. by apply elem_of_nil in Hin.
  - intros Hall. induction riskFactors as [|i l IH]; [done|].
    rewrite filter_cons, decide_False by (apply Hall; by left).
    apply IH. intros j Hj. apply Hall. by right.
Qed.

(** What is rendered when nothing throws. *)
Lemma renderRiskFactors_grouped riskFactors :
  Forall (λ i, ¬ shadowed i) riskFactors →
  riskFactors ≠ [] →
  RiskFactors.renderRiskFactors riskFactors
  = Normal (Some
      {| RiskFactors.sections := RiskFactors.entries (grouped riskFactors);
         RiskFactors.ungrouped :=
           if decide (named_categories riskFactors = []) then Some riskFactors
           else if decide (in_category [] riskFactors = []) then None
                else Some (in_category [] riskFactors) |}).
Proof.
  intros Hok Hne. unfold RiskFactors.renderRiskFactors.
  rewrite decide_False by (by destruct riskFactors).
  rewrite forEach_group_item, decide_False
    by (by apply Forall_not_Exists).
  rewrite bind_Normal. cbv zeta beta iota. do 3 f_equal.
  assert (length (grouped riskFactors) = length (named_categories riskFactors))
    as Hlen by apply length_fmap.
  rewrite !length_fmap, !(Permutation_length (entries_Permutation _)), !Hlen.
  destruct (decide (named_categories riskFactors = [])) as [Hnil|Hnil].
  - by rewrite Hnil.
  - rewrite bool_decide_eq_true_2
      by (destruct (named_categories riskFactors); [done|simpl; lia]).
    simpl. destruct (decide (in_category [] riskFactors = [])) as [Hu|Hu].
    + by rewrite Hu.
    + by rewrite bool_decide_eq_true_2
        by (destruct (in_category [] riskFactors); [done|simpl; lia]).
Qed.

Lemma grouped_names riskFactors :
  fst <$> grouped riskFactors = named_categories riskFactors.
Proof.
  unfold grouped. rewrite <-list_fmap_compose.
  by rewrite (list_fmap_ext _ id), list_fmap_id.
Qed.

Lemma filter_all {A : Type} (P : A → Prop) `{!∀ x, Decision (P x)}
    (l : list A) :
  Forall P l → filter P l = l.
Proof.
  induction 1 as [|x l Hx _ IH]; [done|].
  by rewrite filter_cons, decide_True, IH.
Qed.

Lemma filter_complement_Permutation {A : Type} (P Q : A → Prop)
    `{!∀ x, Decision (P x)} `{!∀ x, Decision (Q x)} (l : list A) :
  (∀ x, Q x ↔ ¬ P x) → filter P l ++ filter Q l ≡ₚ l.
Proof.
  intros Hpq. rewrite (list_filter_iff Q (λ x, ¬ P x)) by done.
  apply filter_app_complement.
Qed.

(** X22.  Rendering the risk factors throws exactly when one of them has a
    category named like a member of [Object.prototype], such as
    "constructor" or "toString". *)
Theorem renderRiskFactors_throws (riskFactors : list RiskFactors.RiskFactor) :
  RiskFactors.renderRiskFactors riskFactors = Throw
  ↔ Exists shadowed riskFactors.
Proof.
  unfold RiskFactors.renderRiskFactors. case_decide as Hlen.
  - destruct riskFactors; [|done]. split; [done|by intros ?%Exists_nil].
  - rewrite forEach_group_item. case_decide; [done|].
    rewrite bind_Normal. cbv zeta beta iota. split; [done|tauto].
Qed.

(** X23.  Otherwise there is one heading for each category that some risk
    factor names, none twice, and under a heading stand exactly the risk
    factors of that category, in their original order. *)
Theorem risk_factors_under_headings
    (riskFactors : list RiskFactors.RiskFactor) :
  Forall (λ i, ¬ shadowed i) riskFactors →
  riskFactors ≠ [] →
  ∃ r,
    RiskFactors.renderRiskFactors riskFactors = Normal (Some r)
    ∧ NoDup (fst <$> r.(RiskFactors.sections))
    ∧ (∀ k, k ∈ fst <$> r.(RiskFactors.sections)
            ↔ k ≠ [] ∧ k ∈ RiskFactors.category <$> riskFactors)
    ∧ (∀ k listed, (k, listed) ∈ r.(RiskFactors.sections) →
         listed = filter (λ i, i.(RiskFactors.category) = k) riskFactors).
Proof.
  intros Hok Hne. eexists. split; [by apply renderRiskFactors_grouped|].
  simpl. split; [|split].
  - rewrite entries_Permutation, grouped_names.
    apply first_occurrences_NoDup.
  - intros k. rewrite entries_Permutation, grouped_names.
    apply named_categories_elem_of.
  - intros k listed. rewrite entries_Permutation.
    by intros (k' & [= -> ->] & _)%list_elem_of_fmap.
Qed.

Lemma risk_factors_under_headings_witness :
  let riskFactors :=
    [ {| RiskFactors.category := str "Lifestyle";
         RiskFactors.factor := str "Smoking";
         RiskFactors.explanation := str "Raises blood pressure" |};
      {| RiskFactors.category := [];
         RiskFactors.factor := str "Age";
         RiskFactors.explanation := str "Over 60" |};
      {| RiskFactors.category := str "Genetic";
         RiskFactors.factor := str "Family history";
         RiskFactors.explanation := str "Parent with diabetes" |};
      {| RiskFactors.category := str "Lifestyle";
         RiskFactors.factor := str "Little sleep";
         RiskFactors.explanation := str "Under five hours" |} ] in
  ∃ r,
    RiskFactors.renderRiskFactors riskFactors = Normal (Some r)
    ∧ NoDup (fst <$> r.(RiskFactors.sections))
    ∧ (∀ k, k ∈ fst <$> r.(RiskFactors.sections)
            ↔ k ≠ [] ∧ k ∈ RiskFactors.category <$> riskFactors)
    ∧ (∀ k listed, (k, listed) ∈ r.(RiskFactors.sections) →
         listed = filter (λ i, i.(RiskFactors.category) = k) riskFactors).
Proof.
  intros riskFactors. apply (risk_factors_under_headings riskFactors).
  - apply (bool_decide_unpack _). by vm_compute.
  - by vm_compute.
Defined.

(** X24.  Every risk factor is listed exactly once.  The plain list below
    the headings holds the risk factors without a category; it is left out
    when every risk factor has one. *)
Theorem every_risk_factor_listed_once
    (riskFactors : list RiskFactors.RiskFactor) :
  Forall (λ i, ¬ shadowed i) riskFactors →
  riskFactors ≠ [] →
  ∃ r,
    RiskFactors.renderRiskFactors riskFactors = Normal (Some r)
    ∧ r.(RiskFactors.ungrouped)
      = (if decide (Forall (λ i, i.(RiskFactors.category) ≠ []) riskFactors)
         then None
         else Some (filter (λ i, i.(RiskFactors.category) = []) riskFactors))
    ∧ mjoin (snd <$> r.(RiskFactors.sections))
      ++ default [] r.(RiskFactors.ungrouped)
      ≡ₚ riskFactors.
Proof.
  intros Hok Hne. eexists. split; [by apply renderRiskFactors_grouped|].
  simpl.
  assert ((if decide (named_categories riskFactors = []) then Some riskFactors
           else if decide (in_category [] riskFactors = []) then None
                else Some (in_category [] riskFactors))
          = if decide (Forall (λ i, i.(RiskFactors.category) ≠ [])
                         riskFactors)
            then None
            else Some (in_category [] riskFactors)) as ->.
  { rewrite (decide_ext _ _ _ _ (in_category_nil [] riskFactors)).
    destruct (decide (named_categories riskFactors = [])) as [Hnil|Hnil];
      [|done].
    apply named_categories_nil in Hnil.
    rewrite decide_False.
    - unfold in_category. by rewrite filter_all.
    - intros Hall. destruct riskFactors as [|i l]; [done|].
      apply Forall_cons in Hnil as [Hi _].
      by apply Forall_cons in Hall as [Hi' _]. }
  split.
  { case_decide; [done|]. f_equal. by apply list_filter_iff. }
  rewrite entries_Permutation, join_grouped.
  assert (default [] (if decide (Forall (λ i, i.(RiskFactors.category) ≠ [])
                                   riskFactors)
                      then None
                      else Some (in_category [] riskFactors))
          = in_category [] riskFactors) as ->.
  { case_decide as Hall; [|done]. simpl. symmetry.
    by apply in_category_nil. }
  rewrite (comm (++)). by apply filter_complement_Permutation.
Qed.

Lemma every_risk_factor_listed_once_witness :
  let riskFactors :=
    [ {| RiskFactors.category := [];
         RiskFactors.factor := str "Age";
         RiskFactors.explanation := str "Over 60" |};
      {| RiskFactors.category := str "Lifestyle";
         RiskFactors.factor := str "Smoking";
         RiskFactors.explanation := str "Raises blood pressure" |};
      {| RiskFactors.category := [];
         RiskFactors.factor := str "Weight";
         RiskFactors.explanation := str "Above the healthy range" |} ] in
  ∃ r,
    RiskFactors.renderRiskFactors riskFactors = Normal (Some r)
    ∧ r.(RiskFactors.ungrouped)
      = (if decide (Forall (λ i, i.(RiskFactors.category) ≠ []) riskFactors)
         then None
         else Some (filter (λ i, i.(RiskFactors.category) = []) riskFactors))
    ∧ mjoin (snd <$> r.(RiskFactors.sections))
      ++ default [] r.(RiskFactors.ungrouped)
      ≡ₚ riskFactors.
Proof.
  intros riskFactors. apply (every_risk_factor_listed_once riskFactors).
  - apply (bool_decide_unpack _). by vm_compute.
  - by vm_compute.
Defined.

(** X25.  When no category is written like an array index, the headings
    come in the order in which the categories first appear among the risk
    factors. *)
Theorem headings_in_order_of_appearance
    (riskFactors : list RiskFactors.RiskFactor) :
  Forall (λ i, ¬ shadowed i) riskFactors →
  riskFactors ≠ [] →
  Forall (λ i, RiskFactors.array_index i.(RiskFactors.category) = None)
    riskFactors →
  ∃ r,
    RiskFactors.renderRiskFactors riskFactors = Normal (Some r)
    ∧ fst <$> r.(RiskFactors.sections)
      = first_occurrences
          (filter (λ k, k ≠ []) (RiskFactors.category <$> riskFactors)).
Proof.
  intros Hok Hne Hidx. eexists. split; [by apply renderRiskFactors_grouped|].
  simpl. rewrite entries_no_index; [apply grouped_names|].
  unfold grouped. apply Forall_fmap, Forall_forall.
  intros k [_ (i & -> & Hi)%list_elem_of_fmap]%named_categories_elem_of.
  rewrite Forall_forall in Hidx. by apply Hidx.
Qed.

Lemma headings_in_order_of_appearance_witness :
  let riskFactors :=
    [ {| RiskFactors.category := str "Medical";
         RiskFactors.factor := str "Hypertension";
         RiskFactors.explanation := str "Untreated" |};
      {| RiskFactors.category := str "Lifestyle";
         RiskFactors.factor := str "Smoking";
         RiskFactors.explanation := str "Raises blood pressure" |};
      {| RiskFactors.category := str "Medical";
         RiskFactors.factor := str "Diabetes";
         RiskFactors.explanation := str "Type 2" |} ] in
  ∃ r,
    RiskFactors.renderRiskFactors riskFactors = Normal (Some r)
    ∧ fst <$> r.(RiskFactors.sections)
      = first_occurrences
          (filter (λ k, k ≠ []) (RiskFactors.category <$> riskFactors)).
Proof.
  intros riskFactors. apply (headings_in_order_of_appearance riskFactors).
  - apply (bool_decide_unpack _). by vm_compute.
  - by vm_compute.
  - apply (bool_decide_unpack _). by vm_compute.
Defined.
